(** * Garden: working-tree versioning through git, remote sources, task results

    A shallow embedding of [garden-service/src/vcs/git.ts] (the git handler:
    [parseGitUrl], [getCommitIdFromRefList], [GitHandler.getFiles],
    [GitHandler.getModifiedFiles], [GitHandler.hashObject],
    [GitHandler.ensureRemoteSource], [GitHandler.updateRemoteSource]) and of
    the task runners of the kubernetes plugin ([runHelmTask],
    [runContainerTask]).

    Conventions of the embedding:
    - a JavaScript string is a [string]; its characters are the code units
      below 256;
    - [string | undefined] is [option string];
    - a promise that may reject, or a function that may throw, returns a
      [result]: [Ok v] or [Err e];
    - the git child process, the file system and Node's [path] module are
      parameters of the sections that use them. *)

From Stdlib Require Import ZArith NArith String Ascii List Lia.
From Stdlib Require Import DecimalString.
From stdpp Require Import base decidable option list strings gmap.

Import ListNotations.
Local Open Scope string_scope.
Local Open Scope list_scope.

(** ** Errors and fallible computations *)

(** The [code] property of a thrown error, as the [catch] blocks read it:
    execa sets it to the exit code of the child process (a number), Node's
    [fs] to a string such as ["ENOENT"]; errors of this repository have none. *)
Inductive Code :=
| CodeNum (n : Z)
| CodeStr (s : string)
| CodeUndefined.

#[global] Instance Code_eq_dec : EqDecision Code.
Proof. solve_decision. Defined.

Inductive Error :=
| ExternalError (code : Code) (message : string)
    (* rejected by execa or fs-extra *)
| ConfigurationError (message : string) (repositoryUrl : string)
| RuntimeError (message : string) (repositoryUrl : string) (cause : string)
| TypeError (message : string).

#[global] Instance Error_eq_dec : EqDecision Error.
Proof. solve_decision. Defined.

Definition err_code (e : Error) : Code :=
  match e with
  | ExternalError c _ => c
  | TypeError _ => CodeStr "ERR_INVALID_ARG_TYPE"
  | ConfigurationError _ _ | RuntimeError _ _ _ => CodeUndefined
  end.

Definition err_message (e : Error) : string :=
  match e with
  | ExternalError _ m | ConfigurationError m _ | RuntimeError m _ _
  | TypeError m => m
  end.

Inductive result (A : Type) :=
| Ok (a : A)
| Err (e : Error).
Arguments Ok {A} a.
Arguments Err {A} e.

Definition bind {A B} (m : result A) (k : A -> result B) : result B :=
  match m with
  | Ok a => k a
  | Err e => Err e
  end.

Declare Scope result_scope.
Delimit Scope result_scope with result.
Notation "'let*' x ':=' m 'in' k" := (bind m (fun x => k))
  (at level 10, x pattern, m at level 100, k at level 200) : result_scope.
Local Open Scope result_scope.

(** [Bluebird.map] over a fallible callback: the results in the order of the
    inputs, or a rejection as soon as one callback rejects. The callbacks of
    this file only read their environment, so running them one after the other
    gives the same list; when several reject, the model reports the leftmost
    rejection. *)
Fixpoint mapM {A B} (f : A -> result B) (l : list A) : result (list B) :=
  match l with
  | [] => Ok []
  | x :: l' =>
      let* y := f x in
      let* ys := mapM f l' in
      Ok (y :: ys)
  end.

(** ** JavaScript strings *)

(** JavaScript truthiness of a string: the empty string is falsy. *)
Definition truthy (s : string) : bool :=
  match s with
  | EmptyString => false
  | String _ _ => true
  end.

(** Truthiness of [string | undefined]. *)
Definition truthy_opt (s : option string) : bool :=
  match s with
  | Some s => truthy s
  | None => false
  end.

(** [s.split(sep)] for a separator of one character: never empty, and
    ["".split(sep)] is [[""]]. *)
Fixpoint split (sep : ascii) (s : string) : list string :=
  match s with
  | EmptyString => [EmptyString]
  | String c s' =>
      if Ascii.eqb c sep then EmptyString :: split sep s'
      else match split sep s' with
           | h :: t => String c h :: t
           | [] => [String c EmptyString]
           end
  end.

(** Does [c] occur in [s]? *)
Fixpoint occurs (c : ascii) (s : string) : bool :=
  match s with
  | EmptyString => false
  | String a s' => Ascii.eqb a c || occurs c s'
  end.

(** Number of occurrences of [c] in [s]. *)
Fixpoint count_char (c : ascii) (s : string) : nat :=
  match s with
  | EmptyString => 0
  | String a s' => (if Ascii.eqb a c then 1 else 0) + count_char c s'
  end.

(** White space as [String.prototype.trim] sees it, among the code units
    below 256: tab, line feed, vertical tab, form feed, carriage return,
    space and the no-break space. *)
Definition is_space (c : ascii) : bool :=
  let n := nat_of_ascii c in
  (((9 <=? n) && (n <=? 13)) || (n =? 32) || (n =? 160))%nat.

Fixpoint trimStart (s : string) : string :=
  match s with
  | EmptyString => EmptyString
  | String c s' => if is_space c then trimStart s' else s
  end.

Fixpoint trimEnd (s : string) : string :=
  match s with
  | EmptyString => EmptyString
  | String c s' =>
      match trimEnd s' with
      | EmptyString => if is_space c then EmptyString else String c EmptyString
      | t => String c t
      end
  end.

Definition trim (s : string) : string := trimEnd (trimStart s).

Definition LF : ascii := ascii_of_nat 10.
Definition TAB : ascii := ascii_of_nat 9.
Definition NUL : ascii := ascii_of_nat 0.

(** ** Parsing a remote-source reference *)

Record GitUrl := { repositoryUrl : string; hash : string }.

#[global] Instance GitUrl_eq_dec : EqDecision GitUrl.
Proof. solve_decision. Defined.

Definition parseGitUrl_message : string :=
  "Repository URLs must contain a hash part pointing to a specific branch or tag (e.g. https://github.com/org/repo.git#master)".

(** [parts[1]] is [undefined] when the URL has no ["#"]; the guard
    [!parsed.hash] rejects both [undefined] and the empty string. *)
Definition parseGitUrl (url : string) : result GitUrl :=
  let parts := split "#" url in
  match parts !! 0%nat, parts !! 1%nat with
  | Some p0, Some p1 =>
      if truthy p1 then Ok {| repositoryUrl := p0; hash := p1 |}
      else Err (ConfigurationError parseGitUrl_message url)
  | _, _ => Err (ConfigurationError parseGitUrl_message url)
  end.

(** [refList[0].split("\t")[0]]; reading [split] off [undefined] throws a
    [TypeError], which the [catch] turns into [refList[0]], that is
    [undefined]. *)
Definition getCommitIdFromRefList (refList : list string) : option string :=
  match refList !! 0%nat with
  | Some r => split TAB r !! 0%nat
  | None => None
  end.

(** ** SHA-1, as hasha computes it over a stream *)

Module Sha1.

Local Open Scope Z_scope.

Definition mask32 (x : Z) : Z := Z.land x 0xFFFFFFFF.
Definition add32 (a b : Z) : Z := mask32 (a + b).
Definition rotl (n x : Z) : Z :=
  mask32 (Z.lor (Z.shiftl x n) (Z.shiftr x (32 - n))).
Definition not32 (x : Z) : Z := Z.lxor x 0xFFFFFFFF.

(** The five chaining words. *)
Record state := { h0 : Z; h1 : Z; h2 : Z; h3 : Z; h4 : Z }.

Definition init : state :=
  {| h0 := 0x67452301; h1 := 0xEFCDAB89; h2 := 0x98BADCFE;
     h3 := 0x10325476; h4 := 0xC3D2E1F0 |}.

(** Sixteen big-endian words of a 64-byte block. *)
Fixpoint words (bytes : list Z) : list Z :=
  match bytes with
  | a :: b :: c :: d :: rest =>
      Z.lor (Z.shiftl a 24) (Z.lor (Z.shiftl b 16) (Z.lor (Z.shiftl c 8) d))
      :: words rest
  | _ => []
  end.

(** The message schedule: [n] more words after the window [w] of the last
    sixteen. *)
Fixpoint schedule (n : nat) (w : list Z) : list Z :=
  match n with
  | O => []
  | S n' =>
      let x := rotl 1 (Z.lxor (Z.lxor (nth 13%nat w 0) (nth 8%nat w 0))
                              (Z.lxor (nth 2%nat w 0) (nth 0%nat w 0))) in
      x :: schedule n' (tl w ++ [x])
  end.

Definition f (t : nat) (b c d : Z) : Z :=
  if (t <? 20)%nat then Z.lor (Z.land b c) (Z.land (not32 b) d)
  else if (t <? 40)%nat then Z.lxor (Z.lxor b c) d
  else if (t <? 60)%nat then
    Z.lor (Z.lor (Z.land b c) (Z.land b d)) (Z.land c d)
  else Z.lxor (Z.lxor b c) d.

Definition k (t : nat) : Z :=
  if (t <? 20)%nat then 0x5A827999
  else if (t <? 40)%nat then 0x6ED9EBA1
  else if (t <? 60)%nat then 0x8F1BBCDC
  else 0xCA62C1D6.

Fixpoint rounds (t : nat) (ws : list Z) (s : state) : state :=
  match ws with
  | [] => s
  | w :: ws' =>
      let temp :=
        add32 (add32 (add32 (add32 (rotl 5 (h0 s)) (f t (h1 s) (h2 s) (h3 s)))
                            (h4 s)) (k t)) w in
      rounds (S t) ws'
        {| h0 := temp; h1 := h0 s; h2 := rotl 30 (h1 s); h3 := h2 s;
           h4 := h3 s |}
  end.

Definition compress (s : state) (block : list Z) : state :=
  let w := words block in
  let r := rounds 0%nat (w ++ schedule 64%nat w) s in
  {| h0 := add32 (h0 s) (h0 r); h1 := add32 (h1 s) (h1 r);
     h2 := add32 (h2 s) (h2 r); h3 := add32 (h3 s) (h3 r);
     h4 := add32 (h4 s) (h4 r) |}.

(** A hash in progress: the chaining state, the bytes of the block that is
    not full yet, and the number of bytes taken so far. *)
Record ctx := { chain : state; pending : list Z; taken : Z }.

Definition start : ctx := {| chain := init; pending := []; taken := 0 |}.

(** Take the bytes one by one; a block is compressed as soon as it is full,
    so [pending] never holds more than 63 bytes between two bytes. *)
Fixpoint update (c : ctx) (bytes : list Z) : ctx :=
  match bytes with
  | [] => c
  | b :: bs =>
      let buf := pending c ++ [b] in
      if (length buf =? 64)%nat then
        update {| chain := compress (chain c) buf; pending := [];
                  taken := taken c + 1 |} bs
      else
        update {| chain := chain c; pending := buf;
                  taken := taken c + 1 |} bs
  end.

(** Big-endian bytes of [x], [n] of them. *)
Fixpoint be_bytes (n : nat) (x : Z) : list Z :=
  match n with
  | O => []
  | S n' => Z.land (Z.shiftr x (8 * Z.of_nat n')) 0xFF :: be_bytes n' x
  end.

(** The padding of a message of [len] bytes: 0x80, zeros up to 56 modulo 64,
    and the length in bits on eight bytes. *)
Definition padding (len : Z) : list Z :=
  let zeros := Z.to_nat ((55 - len) mod 64) in
  0x80 :: repeat 0 zeros ++ be_bytes 8%nat (8 * len).

Definition final (c : ctx) : state :=
  chain (update c (padding (taken c))).

Definition hex_digit (x : Z) : ascii :=
  if x <? 10 then ascii_of_N (Z.to_N (48 + x))
  else ascii_of_N (Z.to_N (87 + x)).

Fixpoint hex_of_bytes (bytes : list Z) : string :=
  match bytes with
  | [] => EmptyString
  | b :: bs =>
      String (hex_digit (Z.shiftr b 4))
        (String (hex_digit (Z.land b 0xF)) (hex_of_bytes bs))
  end.

Definition hex (s : state) : string :=
  hex_of_bytes (be_bytes 4%nat (h0 s) ++ be_bytes 4%nat (h1 s) ++ be_bytes 4%nat (h2 s)
                ++ be_bytes 4%nat (h3 s) ++ be_bytes 4%nat (h4 s)).

Fixpoint bytes_of_string (s : string) : list Z :=
  match s with
  | EmptyString => []
  | String c s' => Z.of_N (N_of_ascii c) :: bytes_of_string s'
  end.

(** The digest of a whole message, in lower-case hexadecimal. *)
Definition digest (msg : string) : string :=
  hex (final (update start (bytes_of_string msg))).

(** The digest of a stream: every chunk is taken as it arrives. *)
Definition digest_stream (chunks : list string) : string :=
  hex (final (fold_left (fun c chunk => update c (bytes_of_string chunk))
                        chunks start)).

End Sha1.


(** ** The working-tree scanner *)

(** What the handler reaches outside of this repository while it scans:
    the git child process ([execa.stdout("git", args, {cwd})] gives the standard
    output, or rejects with the exit code in [err.code]), [fs.stat] (the size
    of a file), [fs.createReadStream] (the chunks of a file, in order), Node's
    [path.resolve] and the glob matcher [matchGlobs] of [util/fs]. *)
Class ScanEnv := {
  execa_stdout : string -> list string -> result string;
  fs_stat : string -> result N;
  fs_createReadStream : string -> list string;
  path_resolve : string -> string -> string;
  matchGlobs : string -> list string -> bool
}.

(** The lines of the output of a git command, the empty ones left out. *)
Definition output_lines (output : string) : list string :=
  List.filter (fun line => (0 <? String.length line)%nat) (split LF output).

Definition gitCli `{ScanEnv} (cwd : string) (args : list string)
  : result (list string) :=
  let* output := execa_stdout cwd args in
  Ok (output_lines output).

Definition getModifiedFiles (git : list string -> result (list string))
    (path : string) : result (list string) :=
  match git ["diff-index"; "--name-only"; "HEAD"; path] with
  | Ok files => Ok files
  | Err err =>
      if bool_decide (err_code err = CodeNum 128) then Ok [] (* no commit in repo *)
      else Err err
  end.

(** An entry of [ls-files -s --other]: [hash] is missing for an untracked
    file. *)
Record LsFile := { ls_path : string; ls_hash : option string }.

#[global] Instance LsFile_eq_dec : EqDecision LsFile.
Proof. solve_decision. Defined.

(** An entry of the result of [getFiles]. *)
Record VcsFile := { path : string; vcs_hash : string }.

#[global] Instance VcsFile_eq_dec : EqDecision VcsFile.
Proof. solve_decision. Defined.

(** A line of [ls-files -s --other]: either [<path>] (untracked) or
    [<mode> <hash> <stage>\t<path>]. *)
Definition parseLine (line : string) : LsFile :=
  let split_ := split TAB (trim line) in
  match split_ with
  | [p] => {| ls_path := p; ls_hash := None |}
  | s0 :: s1 :: _ => {| ls_path := s1; ls_hash := split " " s0 !! 1%nat |}
  | [] => {| ls_path := EmptyString; ls_hash := None |}
  end.

(** [`${info.size}`] *)
Definition decimal (n : N) : string := NilEmpty.string_of_uint (N.to_uint n).

Definition blob_header (size : N) : string :=
  "blob " +:+ decimal size +:+ String NUL EmptyString.

(** The bytes that went through a stream: its chunks, one after the other. *)
Definition stream_content (chunks : list string) : string :=
  fold_right String.append EmptyString chunks.

(** [hashObject]: the header is pushed on the stream first, the file is piped
    behind it, and hasha digests the stream. [stat] rejects (with [ENOENT]) when
    the file is gone. *)
Definition hashObject `{ScanEnv} (path : string) : result string :=
  let* size := fs_stat path in
  let stream := blob_header size :: fs_createReadStream path in
  Ok (Sha1.digest_stream stream).

(** [path.resolve(from, to)] where [from] may be [undefined]: Node refuses an
    argument that is not a string. *)
Definition resolve_from `{ScanEnv} (from : option string) (to : string)
  : result string :=
  match from with
  | Some root => Ok (path_resolve root to)
  | None => Err (TypeError "The path argument must be of type string")
  end.

(** The two [ls-files] calls of the [try] block: [lines] keeps what was
    assigned before a rejection with code 128. *)
Definition listFiles (git : list string -> result (list string))
    (path : string) : result (list string * list string) :=
  match git ["ls-files"; "-s"; "--other"; "--exclude=.garden"; path] with
  | Ok lines =>
      match git ["ls-files"; "--ignored";
                 "--exclude-per-directory=.gardenignore"; path] with
      | Ok ignored => Ok (lines, ignored)
      | Err err =>
          if bool_decide (err_code err ≠ CodeNum 128) then Err err
          else Ok (lines, [])
      end
  | Err err =>
      if bool_decide (err_code err ≠ CodeNum 128) then Err err
      else Ok ([], [])
  end.

(** [files.filter(include).filter(not ignored)] *)
Definition filterFiles `{ScanEnv} (include : option (list string))
    (ignored : list string) (files : list LsFile) : list LsFile :=
  List.filter (fun f => negb (bool_decide (ls_path f ∈ ignored)))
    (List.filter
       (fun f => match include with
                 | None => true
                 | Some globs => matchGlobs (ls_path f) globs
                 end)
       files).

(** The callback of the last [Bluebird.map]: the hash of one entry.
    [modified] is the set of resolved paths of [diff-index]. In the [else]
    branch [f.hash] is a non-empty string. *)
Definition hashFile `{ScanEnv} (path : string) (modified : gset string)
    (f : LsFile) : result VcsFile :=
  let resolvedPath := path_resolve path (ls_path f) in
  if negb (truthy_opt (ls_hash f)) || bool_decide (resolvedPath ∈ modified) then
    (* If we can't compute the hash, i.e. the file is gone, we filter it out
       below *)
    match hashObject resolvedPath with
    | Ok hash =>
        Ok {| path := resolvedPath;
              vcs_hash := if truthy hash then hash else EmptyString |}
    | Err err =>
        (* 128 = File no longer exists *)
        if bool_decide (err_code err ≠ CodeNum 128)
           && bool_decide (err_code err ≠ CodeStr "ENOENT")
        then Err err
        else Ok {| path := resolvedPath; vcs_hash := EmptyString |}
    end
  else Ok {| path := resolvedPath; vcs_hash := default EmptyString (ls_hash f) |}.

Definition getFiles `{ScanEnv} (path : string) (include : option (list string))
  : result (list VcsFile) :=
  let git := gitCli path in
  let* toplevel := git ["rev-parse"; "--show-toplevel"] in
  let gitRoot := toplevel !! 0%nat in
  let* (lines, ignored) := listFiles git path in
  let files := map parseLine lines in
  let* modifiedRel := getModifiedFiles git path in
  let* modifiedArr := mapM (resolve_from gitRoot) modifiedRel in
  let modified : gset string := list_to_set modifiedArr in
  let filtered := filterFiles include ignored files in
  let* hashed := mapM (hashFile path modified) filtered in
  Ok (List.filter (fun f => negb (bool_decide (vcs_hash f = EmptyString))) hashed).

(** What [getFiles] has gathered when it starts to filter: the entries of
    [ls-files], the ignored paths and the set of modified paths. These are the
    statements of [getFiles] above its [filtered] constant. *)
Definition scanTree `{ScanEnv} (path : string)
  : result (list LsFile * list string * gset string) :=
  let git := gitCli path in
  let* toplevel := git ["rev-parse"; "--show-toplevel"] in
  let gitRoot := toplevel !! 0%nat in
  let* (lines, ignored) := listFiles git path in
  let files := map parseLine lines in
  let* modifiedRel := getModifiedFiles git path in
  let* modifiedArr := mapM (resolve_from gitRoot) modifiedRel in
  Ok (files, ignored, list_to_set modifiedArr).

(** The condition under which an entry keeps the hash of the index: it carries
    one (a non-empty string) and its resolved path is not in the modified
    set. *)
Definition reusesIndexHash `{ScanEnv} (path : string) (modified : gset string)
    (f : LsFile) : bool :=
  truthy_opt (ls_hash f)
  && negb (bool_decide (path_resolve path (ls_path f) ∈ modified)).

(** The rejections that [hashFile] takes for a file that is gone. *)
Definition vanished (err : Error) : Prop :=
  err_code err = CodeNum 128 \/ err_code err = CodeStr "ENOENT".

(** [git hash-object]: the SHA-1 of the blob header followed by the content. *)
Definition git_hash_object (content : string) : string :=
  Sha1.digest ("blob " +:+ decimal (N.of_nat (String.length content))
               +:+ String NUL EmptyString +:+ content).

(** ** Remote sources *)

(** What the handler does to the outside while it synchronises a remote
    source, in the order it does it: a git child process (working directory
    and arguments), and the messages sent to the log entry. *)
Inductive Event :=
| Git (cwd : string) (args : list string)
| LogInfo (section msg status : string)
| EntrySetState (msg : string)
| EntrySetSuccess (msg : option string)
| EntrySetError.

#[global] Instance Event_eq_dec : EqDecision Event.
Proof. solve_decision. Defined.

(** The outside of the synchroniser, over a type of worlds (the remote
    repository, the file system with the checkouts): git commands and
    [fs-extra]'s [ensureDir] and [pathExists] read and change the world;
    [path.join], [gardenDirPath] and the two path helpers of [VcsHandler]
    are given. *)
Class SyncEnv (World : Type) := {
  git_run : string -> list string -> World -> result string * World;
  fs_ensureDir : string -> World -> result unit * World;
  fs_pathExists : string -> World -> bool * World;
  path_join : string -> string -> string;
  gardenDirPath : string;
  getRemoteSourcesDirname : string -> string;
  getRemoteSourceRelPath : string -> string -> string -> string
}.

Record State (World : Type) := { world : World; events : list Event }.
Arguments world {World} _.
Arguments events {World} _.

(** A step of the synchroniser: it may reject, and changes the state either
    way. *)
Definition Sync (World A : Type) : Type := State World -> result A * State World.

Definition ret {World A} (a : A) : Sync World A := fun s => (Ok a, s).

Definition throw {World A} (e : Error) : Sync World A := fun s => (Err e, s).

Definition bindS {World A B} (m : Sync World A) (k : A -> Sync World B)
  : Sync World B :=
  fun s =>
    match m s with
    | (Ok a, s') => k a s'
    | (Err e, s') => (Err e, s')
    end.

(** [try { m } catch (err) { handler(err) }] *)
Definition catch {World A} (m : Sync World A) (handler : Error -> Sync World A)
  : Sync World A :=
  fun s =>
    match m s with
    | (Ok a, s') => (Ok a, s')
    | (Err e, s') => handler e s'
    end.

Definition lift {World A} (r : result A) : Sync World A := fun s => (r, s).

Definition emit {World} (e : Event) : Sync World unit :=
  fun s => (Ok tt, {| world := world s; events := events s ++ [e] |}).

Declare Scope sync_scope.
Delimit Scope sync_scope with sync.
Notation "'let!' x ':=' m 'in' k" := (bindS m (fun x => k))
  (at level 10, x pattern, m at level 100, k at level 200) : sync_scope.
Notation "m ';;' k" := (bindS m (fun _ => k))
  (at level 100, k at level 200, right associativity) : sync_scope.

Record RemoteSourceParams := { url : string; name : string; sourceType : string }.

(** [`${err}`] *)
Definition error_toString (e : Error) : string := "Error: " +:+ err_message e.

Section RemoteSource.

Context {World : Type} `{SyncEnv World}.
Local Open Scope sync_scope.

(** [gitCli(cwd)] against a world that the command may change. *)
Definition gitCliS (cwd : string) (args : list string)
  : Sync World (list string) :=
  fun s =>
    let '(r, w) := git_run cwd args (world s) in
    let s' := {| world := w; events := events s ++ [Git cwd args] |} in
    match r with
    | Ok output => (Ok (output_lines output), s')
    | Err e => (Err e, s')
    end.

Definition ensureDir (dir : string) : Sync World unit :=
  fun s =>
    let '(r, w) := fs_ensureDir dir (world s) in
    (r, {| world := w; events := events s |}).

Definition pathExists (p : string) : Sync World bool :=
  fun s =>
    let '(b, w) := fs_pathExists p (world s) in
    (Ok b, {| world := w; events := events s |}).

Definition ensureRemoteSource (params : RemoteSourceParams)
  : Sync World string :=
  let remoteSourcesPath :=
    path_join gardenDirPath (getRemoteSourcesDirname (sourceType params)) in
  ensureDir remoteSourcesPath ;;
  let git := gitCliS remoteSourcesPath in
  let absPath :=
    path_join gardenDirPath
      (getRemoteSourceRelPath (name params) (url params) (sourceType params)) in
  let! isCloned := pathExists absPath in
  (if negb isCloned then
     emit (LogInfo (name params) ("Fetching from " +:+ url params) "active") ;;
     let! parsed := lift (parseGitUrl (url params)) in
     catch
       (let! _ := git ["clone"; "--depth=1"; "--branch=" +:+ hash parsed;
                       repositoryUrl parsed; absPath] in
        ret tt)
       (fun err =>
          emit EntrySetError ;;
          throw (RuntimeError
                   ("Downloading remote " +:+ sourceType params
                    +:+ " failed with error: " +:+ String LF (String LF EmptyString)
                    +:+ error_toString err)
                   (url params) (err_message err))) ;;
     emit (EntrySetSuccess None)
   else ret tt) ;;
  ret absPath.

Definition updateRemoteSource (params : RemoteSourceParams)
  : Sync World unit :=
  let absPath :=
    path_join gardenDirPath
      (getRemoteSourceRelPath (name params) (url params) (sourceType params)) in
  let git := gitCliS absPath in
  let! parsed := lift (parseGitUrl (url params)) in
  let! _ := ensureRemoteSource params in
  emit (LogInfo (name params) "Getting remote state" "active") ;;
  let! _ := git ["remote"; "update"] in
  let! remoteRefs := git ["ls-remote"; repositoryUrl parsed; hash parsed] in
  let remoteCommitId := getCommitIdFromRefList remoteRefs in
  let! localRefs := git ["show-ref"; "--hash"; hash parsed] in
  let localCommitId := getCommitIdFromRefList localRefs in
  if negb (bool_decide (localCommitId = remoteCommitId)) then
    emit (EntrySetState ("Fetching from " +:+ url params)) ;;
    catch
      (let! _ := git ["fetch"; "--depth=1"; "origin"; hash parsed] in
       let! _ := git ["reset"; "--hard"; "origin/" +:+ hash parsed] in
       ret tt)
      (fun err =>
         emit EntrySetError ;;
         throw (RuntimeError
                  ("Updating remote " +:+ sourceType params
                   +:+ " failed with error: " +:+ String LF (String LF EmptyString)
                   +:+ error_toString err)
                  (url params) (err_message err))) ;;
    emit (EntrySetSuccess (Some "Source updated"))
  else
    emit (EntrySetSuccess (Some "Source already up to date")).

(** The checkout of a remote source, and the directory of all of them. *)
Definition remoteSourcePath (params : RemoteSourceParams) : string :=
  path_join gardenDirPath
    (getRemoteSourceRelPath (name params) (url params) (sourceType params)).

Definition remoteSourcesPath (params : RemoteSourceParams) : string :=
  path_join gardenDirPath (getRemoteSourcesDirname (sourceType params)).

(** The local commit id as [updateRemoteSource] reads it in a world. *)
Definition localCommitId (params : RemoteSourceParams) (ref : string)
    (w : World) : result (option string) :=
  match git_run (remoteSourcePath params) ["show-ref"; "--hash"; ref] w with
  | (Ok output, _) => Ok (getCommitIdFromRefList (output_lines output))
  | (Err e, _) => Err e
  end.

(** What an update does to the outside when there is nothing to fetch. *)
Definition upToDateReport (params : RemoteSourceParams) (parsed : GitUrl)
  : list Event :=
  [ LogInfo (name params) "Getting remote state" "active";
    Git (remoteSourcePath params) ["remote"; "update"];
    Git (remoteSourcePath params)
      ["ls-remote"; repositoryUrl parsed; hash parsed];
    Git (remoteSourcePath params) ["show-ref"; "--hash"; hash parsed];
    EntrySetSuccess (Some "Source already up to date") ].

(** A world in which the checkout exists and nothing moves: the directory of
    the sources is there, the checkout is there, and the three queries of an
    update succeed and leave the world as it is. *)
Record Settled (params : RemoteSourceParams) (parsed : GitUrl) (w : World)
    (remoteOutput localOutput : string) : Prop := {
  settled_dir : fs_ensureDir (remoteSourcesPath params) w = (Ok tt, w);
  settled_cloned : fs_pathExists (remoteSourcePath params) w = (true, w);
  settled_remote_update :
    exists output,
      git_run (remoteSourcePath params) ["remote"; "update"] w = (Ok output, w);
  settled_ls_remote :
    git_run (remoteSourcePath params)
      ["ls-remote"; repositoryUrl parsed; hash parsed] w
    = (Ok remoteOutput, w);
  settled_show_ref :
    git_run (remoteSourcePath params) ["show-ref"; "--hash"; hash parsed] w
    = (Ok localOutput, w)
}.

End RemoteSource.

(** ** Task results *)

(** [RunResult] of [types/plugin/base]; dates are milliseconds. *)
Record RunResult := {
  moduleName : string;
  command : list string;
  version : string;
  success : bool;
  startedAt : Z;
  completedAt : Z;
  output : string
}.

(** [RunTaskResult]: a [RunResult] with the name of the task. *)
Record RunTaskResult := { run : RunResult; taskName : string }.

(** The arguments of [runPod] that the two task runners set. *)
Record RunPodParams := {
  pod_context : string;
  pod_namespace : string;
  pod_module : string;
  pod_envVars : list (string * string);
  pod_command : option (list string);
  pod_args : list string;
  pod_image : string;
  pod_interactive : bool;
  pod_ignoreError : bool;
  pod_timeout : option Z;
  pod_annotations : list (string * string)
}.

(** A task of a module, as the runners read it. *)
Record Task := {
  task_name : string;
  task_module : string;
  spec_command : option (list string);
  spec_args : list string;
  spec_env : list (string * string);
  spec_timeout : option Z
}.

(** The collaborators of the task runners that are not part of this file:
    the provider's context, the namespace and image look-ups ([getImage] for a
    chart, [containerHelpers.getDeploymentImageId] for a container module),
    [runPod], and the ceiling [MAX_RUN_RESULT_OUTPUT_LENGTH] of
    [kubernetes/constants]. *)
Class RunEnv := {
  provider_context : string;
  getAppNamespace : result string;
  getImage : string -> result string;
  getDeploymentImageId : string -> result string;
  runPod : RunPodParams -> result RunResult;
  MAX_RUN_RESULT_OUTPUT_LENGTH : nat
}.

(** [str.substr(n)] *)
Fixpoint substr (n : nat) (str : string) : string :=
  match n, str with
  | O, _ => str
  | S n', String _ s' => substr n' s'
  | S _, EmptyString => EmptyString
  end.

(** Modelled from the spec: [tailString] of [util/string], whose source is
    missing. A string longer than [maxLength] is truncated, retaining its
    trailing portion; a string within the ceiling is kept. The spec does not
    say what the third argument of the call stands for, and the model does not
    read it. *)
Definition tailString (str : string) (maxLength : nat) (nextLine : bool)
  : string :=
  let overflow := String.length str - maxLength in
  if (0 <? overflow)%nat then substr overflow str else str.

(** [t] is a trailing portion of [s]. *)
Definition is_tail (t s : string) : Prop := exists front, s = front +:+ t.

(** The stored results, keyed by scope (module and task) and version. *)
Definition TaskKey : Type := string * string * string.

(** Modelled from the spec: [storeTaskResult] of [kubernetes/task-results],
    whose source is missing: [put(scope, version, result)] persists the result
    under its key, a newer write replacing an older one, and an output above
    the ceiling is stored truncated, its tail retained. *)
Definition storeTaskResult `{RunEnv} (store : gmap TaskKey RunTaskResult)
    (module : string) (taskResult : RunTaskResult) (taskVersion name : string)
  : gmap TaskKey RunTaskResult :=
  let r := run taskResult in
  let stored :=
    {| run := {| moduleName := moduleName r; command := command r;
                 version := version r; success := success r;
                 startedAt := startedAt r; completedAt := completedAt r;
                 output := tailString (output r) MAX_RUN_RESULT_OUTPUT_LENGTH true |};
       taskName := taskName taskResult |} in
  <[(module, name, taskVersion) := stored]> store.

(** [{...a, ...b}] on environment variables: the keys of [b] win. *)
Definition merge_env (a b : list (string * string)) : list (string * string) :=
  List.filter (fun kv => negb (bool_decide (kv.1 ∈ map fst b))) a ++ b.

Definition runHelmTask `{RunEnv} (store : gmap TaskKey RunTaskResult)
    (task : Task) (taskVersion : string) (interactive : bool)
    (envVars : list (string * string)) (timeout : option Z)
  : result (RunTaskResult * gmap TaskKey RunTaskResult) :=
  let context := provider_context in
  let* namespace := getAppNamespace in
  let* image := getImage (task_module task) in
  let* res :=
    runPod {| pod_context := context; pod_namespace := namespace;
              pod_module := task_module task;
              pod_envVars := merge_env envVars (spec_env task);
              pod_command := spec_command task; pod_args := spec_args task;
              pod_image := image; pod_interactive := interactive;
              pod_ignoreError := false; pod_timeout := timeout;
              pod_annotations := [] |} in
  let taskResult :=
    {| run := {| moduleName := moduleName res; command := command res;
                 version := version res; success := success res;
                 startedAt := startedAt res; completedAt := completedAt res;
                 (* Make sure we don't exceed max length of ConfigMap *)
                 output := tailString (output res) MAX_RUN_RESULT_OUTPUT_LENGTH true |};
       taskName := task_name task |} in
  let store' :=
    storeTaskResult store (task_module task) taskResult taskVersion
      (task_name task) in
  Ok (taskResult, store').

Definition runContainerTask `{RunEnv} (store : gmap TaskKey RunTaskResult)
    (task : Task) (taskVersion : string) (interactive : bool)
    (envVars : list (string * string))
  : result (RunTaskResult * gmap TaskKey RunTaskResult) :=
  let envVars := merge_env envVars (spec_env task) in
  let context := provider_context in
  let* namespace := getAppNamespace in
  let* image := getDeploymentImageId (task_module task) in
  let* res :=
    runPod {| pod_context := context; pod_namespace := namespace;
              pod_module := task_module task; pod_envVars := envVars;
              pod_command := spec_command task; pod_args := spec_args task;
              pod_image := image; pod_interactive := interactive;
              pod_ignoreError := false;
              pod_timeout := Some (match spec_timeout task with
                                   | Some t => if (t =? 0)%Z then 9999%Z else t
                                   | None => 9999%Z
                                   end);
              pod_annotations := [("sidecar.istio.io/inject", "false")] |} in
  let taskResult := {| run := res; taskName := task_name task |} in
  let store' :=
    storeTaskResult store (task_module task) taskResult taskVersion
      (task_name task) in
  Ok (taskResult, store').

(** ** Concrete environments

    Small worlds on which the definitions above run: they instantiate the
    hypotheses of the theorems below. *)

Module Fixture.

Definition nl : string := String LF EmptyString.
Definition tab : string := String TAB EmptyString.

Fixpoint ends_with_rev (suffix_rev s_rev : list ascii) : bool :=
  match suffix_rev, s_rev with
  | [], _ => true
  | a :: l, b :: m => Ascii.eqb a b && ends_with_rev l m
  | _ :: _, [] => false
  end.

Definition ends_with (suffix s : string) : bool :=
  ends_with_rev (rev (list_ascii_of_string suffix)) (rev (list_ascii_of_string s)).

(** [resolve] on the paths of the fixtures: an absolute [to] stands, a
    relative one is appended to [from]. *)
Definition resolve (from to : string) : string :=
  match to with
  | String "/" _ => to
  | _ => from +:+ "/" +:+ to
  end.

Definition not_a_repository : Error :=
  ExternalError (CodeNum 128) "fatal: not a git repository".

Definition no_such_file : Error :=
  ExternalError (CodeStr "ENOENT") "ENOENT: no such file or directory".

(** A directory outside of any repository: every git command exits
    with 128. *)
Definition outside : ScanEnv :=
  {| execa_stdout := fun _ _ => Err not_a_repository;
     fs_stat := fun _ => Err no_such_file;
     fs_createReadStream := fun _ => [];
     path_resolve := resolve;
     matchGlobs := fun p globs => existsb (fun g => ends_with g p) globs |}.

(** A repository at [/repo]: [a.go] is tracked and modified, [b.md] is
    tracked, unmodified and ignored by [.gardenignore], [c.go] is tracked and
    unmodified, [new.go] is untracked, and [gone.go] is listed but has been
    removed before it is hashed. *)
Definition repo : ScanEnv :=
  {| execa_stdout := fun cwd args =>
       if bool_decide (args = ["rev-parse"; "--show-toplevel"]) then
         Ok ("/repo" +:+ nl)
       else if bool_decide (args = ["ls-files"; "-s"; "--other";
                                    "--exclude=.garden"; "/repo"]) then
         Ok ("100644 0000000000000000000000000000000000000001 0" +:+ tab
               +:+ "a.go" +:+ nl
             +:+ "100644 0000000000000000000000000000000000000002 0" +:+ tab
               +:+ "b.md" +:+ nl
             +:+ "100644 0000000000000000000000000000000000000003 0" +:+ tab
               +:+ "c.go" +:+ nl
             +:+ "new.go" +:+ nl +:+ "gone.go" +:+ nl)
       else if bool_decide (args = ["ls-files"; "--ignored";
                                    "--exclude-per-directory=.gardenignore";
                                    "/repo"]) then
         Ok ("b.md" +:+ nl)
       else if bool_decide (args = ["diff-index"; "--name-only"; "HEAD";
                                    "/repo"]) then
         Ok ("a.go" +:+ nl)
       else Err (ExternalError (CodeNum 1) "unknown command");
     fs_stat := fun p =>
       if bool_decide (p = "/repo/a.go") then Ok 6%N
       else if bool_decide (p = "/repo/new.go") then Ok 13%N
       else if bool_decide (p = "/repo/gone.go") then Err no_such_file
       else Ok 0%N;
     fs_createReadStream := fun p =>
       if bool_decide (p = "/repo/a.go") then ["hel"; "lo" +:+ nl]
       else if bool_decide (p = "/repo/new.go") then ["test "; "content" +:+ nl]
       else [];
     path_resolve := resolve;
     matchGlobs := fun p globs => existsb (fun g => ends_with g p) globs |}.

End Fixture.


Module SyncFixture.

(** A remote repository with one ref, and at most one checkout of it: the
    commit of the ref upstream, and for the checkout its head and its
    remote-tracking ref. *)
Record GitWorld := {
  upstream : string;
  checkout : option (string * string)
}.

Definition no_checkout : Error :=
  ExternalError (CodeNum 128) "fatal: not a git repository".

Definition run (cwd : string) (args : list string) (w : GitWorld)
  : result string * GitWorld :=
  match args !! 0%nat, checkout w with
  | Some "clone", _ =>
      (Ok EmptyString,
       {| upstream := upstream w; checkout := Some (upstream w, upstream w) |})
  | Some "ls-remote", _ =>
      (Ok (upstream w +:+ Fixture.tab +:+ "refs/heads/main" +:+ Fixture.nl), w)
  | Some "remote", Some (head, _) =>
      (Ok ("Fetching origin" +:+ Fixture.nl),
       {| upstream := upstream w; checkout := Some (head, upstream w) |})
  | Some "show-ref", Some (head, tracking) =>
      (Ok (head +:+ Fixture.nl +:+ tracking +:+ Fixture.nl), w)
  | Some "fetch", Some (head, _) =>
      (Ok EmptyString,
       {| upstream := upstream w; checkout := Some (head, upstream w) |})
  | Some "reset", Some (_, tracking) =>
      (Ok ("HEAD is now at " +:+ tracking +:+ Fixture.nl),
       {| upstream := upstream w; checkout := Some (tracking, tracking) |})
  | _, _ => (Err no_checkout, w)
  end.

Definition env : SyncEnv GitWorld :=
  {| git_run := run;
     fs_ensureDir := fun _ w => (Ok tt, w);
     fs_pathExists := fun _ w => (bool_decide (is_Some (checkout w)), w);
     path_join := fun a b => a +:+ "/" +:+ b;
     gardenDirPath := "/project/.garden";
     getRemoteSourcesDirname := fun sourceType => "sources/" +:+ sourceType;
     getRemoteSourceRelPath := fun name url sourceType =>
       "sources/" +:+ sourceType +:+ "/" +:+ name |}.

Definition params : RemoteSourceParams :=
  {| url := "https://example.com/r.git#main"; name := "r";
     sourceType := "module" |}.

(** The checkout is at commit [c1], and so is the ref upstream. *)
Definition in_sync : GitWorld :=
  {| upstream := "c1"; checkout := Some ("c1", "c1") |}.

(** The ref has moved to [c2] upstream. *)
Definition behind : GitWorld :=
  {| upstream := "c2"; checkout := Some ("c1", "c1") |}.

End SyncFixture.

Module RunFixture.

Definition pod_result : RunResult :=
  {| moduleName := "module-a"; command := ["echo"; "A"]; version := "v-1";
     success := true; startedAt := 0; completedAt := 1;
     output := "0123456789" |}.

(** A provider whose ceiling is four characters. *)
Definition env : RunEnv :=
  {| provider_context := "local";
     getAppNamespace := Ok "default";
     getImage := fun module => Ok (module +:+ ":latest");
     getDeploymentImageId := fun module => Ok (module +:+ ":v-1");
     runPod := fun _ => Ok pod_result;
     MAX_RUN_RESULT_OUTPUT_LENGTH := 4 |}.

Definition task : Task :=
  {| task_name := "task-a"; task_module := "module-a";
     spec_command := Some ["echo"; "A"]; spec_args := [];
     spec_env := []; spec_timeout := None |}.

End RunFixture.

(** ** Outputs of git, and traces *)


(** The line of [ls-files -s] for a tracked file. *)
Definition stagedLine (mode object stage file : string) : string :=
  mode +:+ " " +:+ object +:+ " " +:+ stage +:+ String TAB file.

(** A digit of lower-case hexadecimal. *)
Definition is_hex_digit (c : ascii) : bool :=
  let n := nat_of_ascii c in
  (((48 <=? n) && (n <=? 57)) || ((97 <=? n) && (n <=? 102)))%nat.

Fixpoint all_chars (p : ascii -> bool) (s : string) : bool :=
  match s with
  | EmptyString => true
  | String c s' => p c && all_chars p s'
  end.

(** The git command of an event, if it is one. *)
Definition gitCommand (e : Event) : option string :=
  match e with
  | Git _ args => args !! 0%nat
  | _ => None
  end.

(** In a trace, every [reset] comes directly after a [fetch]: [afterFetch]
    tells whether the event before the trace was a [fetch]. *)
Fixpoint resetFollowsFetch (afterFetch : bool) (trace : list Event) : bool :=
  match trace with
  | [] => true
  | e :: trace' =>
      (if bool_decide (gitCommand e = Some "reset") then afterFetch else true)
      && resetFollowsFetch (bool_decide (gitCommand e = Some "fetch")) trace'
  end.

(** The git commands of a trace, in order. *)
Definition gitCommands (trace : list Event) : list string :=
  omap gitCommand trace.

Module OfflineFixture.

(** The world of [SyncFixture] without network: [clone], [ls-remote],
    [remote update] and [fetch] fail, the local commands work. *)
Definition unreachable : Error :=
  ExternalError (CodeNum 128) "fatal: unable to access the remote".

Definition run (cwd : string) (args : list string) (w : SyncFixture.GitWorld)
  : result string * SyncFixture.GitWorld :=
  if bool_decide (args !! 0%nat = Some "show-ref")
     || bool_decide (args !! 0%nat = Some "reset")
  then SyncFixture.run cwd args w
  else (Err unreachable, w).

Definition env : SyncEnv SyncFixture.GitWorld :=
  {| git_run := run;
     fs_ensureDir := fun _ w => (Ok tt, w);
     fs_pathExists := fun _ w =>
       (bool_decide (is_Some (SyncFixture.checkout w)), w);
     path_join := fun a b => a +:+ "/" +:+ b;
     gardenDirPath := "/project/.garden";
     getRemoteSourcesDirname := fun sourceType => "sources/" +:+ sourceType;
     getRemoteSourceRelPath := fun name url sourceType =>
       "sources/" +:+ sourceType +:+ "/" +:+ name |}.

(** No checkout yet. *)
Definition absent : SyncFixture.GitWorld :=
  {| SyncFixture.upstream := "c1"; SyncFixture.checkout := None |}.

(** The same remote source, its reference written without a ref name. *)
Definition bare : RemoteSourceParams :=
  {| url := "https://example.com/r.git"; name := "r"; sourceType := "module" |}.

(** The world of [SyncFixture] where only [fetch] fails: the remote answers
    the queries, but the ref cannot be downloaded. *)
Definition run_no_fetch (cwd : string) (args : list string)
    (w : SyncFixture.GitWorld) : result string * SyncFixture.GitWorld :=
  if bool_decide (args !! 0%nat = Some "fetch") then (Err unreachable, w)
  else SyncFixture.run cwd args w.

Definition env_no_fetch : SyncEnv SyncFixture.GitWorld :=
  {| git_run := run_no_fetch;
     fs_ensureDir := fun _ w => (Ok tt, w);
     fs_pathExists := fun _ w =>
       (bool_decide (is_Some (SyncFixture.checkout w)), w);
     path_join := fun a b => a +:+ "/" +:+ b;
     gardenDirPath := "/project/.garden";
     getRemoteSourcesDirname := fun sourceType => "sources/" +:+ sourceType;
     getRemoteSourceRelPath := fun name url sourceType =>
       "sources/" +:+ sourceType +:+ "/" +:+ name |}.

End OfflineFixture.

Module ReadFixture.

Definition permission_denied : Error :=
  ExternalError (CodeStr "EACCES") "EACCES: permission denied".

(** The repository of [Fixture], where [new.go] cannot be read. *)
Definition locked : ScanEnv :=
  {| execa_stdout := @execa_stdout Fixture.repo;
     fs_stat := fun p =>
       if bool_decide (p = "/repo/new.go") then Err permission_denied
       else @fs_stat Fixture.repo p;
     fs_createReadStream := @fs_createReadStream Fixture.repo;
     path_resolve := Fixture.resolve;
     matchGlobs := @matchGlobs Fixture.repo |}.

(** Two files with the same eleven bytes, read in different chunks. *)
Definition chunked : ScanEnv :=
  {| execa_stdout := fun _ _ => Err Fixture.not_a_repository;
     fs_stat := fun _ => Ok 11%N;
     fs_createReadStream := fun p =>
       if bool_decide (p = "/x") then ["hello "; "world"]
       else ["hel"; "lo wor"; "ld"];
     path_resolve := Fixture.resolve;
     matchGlobs := fun _ _ => true |}.

End ReadFixture.

(** * Properties *)

(** ** Splitting *)

Lemma split_no_sep (sep : ascii) (s : string) :
  occurs sep s = false -> split sep s = [s].
Proof.
  induction s as [|c s IH]; simpl; [reflexivity|].
  destruct (Ascii.eqb c sep); simpl; [discriminate|].
  intros Hs. rewrite (IH Hs). reflexivity.
Qed.

Lemma split_app_sep (sep : ascii) (a b : string) :
  occurs sep a = false ->
  split sep (a +:+ String sep b) = a :: split sep b.
Proof.
  induction a as [|c a IH]; simpl.
  - intros _. rewrite Ascii.eqb_refl. reflexivity.
  - destruct (Ascii.eqb c sep); simpl; [discriminate|].
    intros Ha. rewrite (IH Ha). reflexivity.
Qed.

Lemma truthy_true (s : string) : truthy s = true <-> s <> EmptyString.
Proof. destruct s; simpl; split; congruence. Qed.

(** ** [parseGitUrl] *)

(** C3. A string without ["#"] is rejected with a [ConfigurationError], and
    [repo#ref] (no ["#"] in [repo] nor in [ref]) parses to the repository URL
    and the ref name as two components, provided the ref name is not empty;
    with an empty ref name it is rejected as well. *)
Theorem parseGitUrl_ref_suffix (repo ref : string) :
  occurs "#" repo = false ->
  occurs "#" ref = false ->
  parseGitUrl repo = Err (ConfigurationError parseGitUrl_message repo)
  /\ parseGitUrl (repo +:+ "#" +:+ ref)
     = if truthy ref then Ok {| repositoryUrl := repo; hash := ref |}
       else Err (ConfigurationError parseGitUrl_message (repo +:+ "#" +:+ ref)).
Proof.
  intros Hrepo Href. split.
  - unfold parseGitUrl. rewrite (split_no_sep _ _ Hrepo). reflexivity.
  - unfold parseGitUrl.
    change (repo +:+ "#" +:+ ref) with (repo +:+ String "#" ref).
    rewrite (split_app_sep _ _ _ Hrepo), (split_no_sep _ _ Href).
    simpl. reflexivity.
Qed.

Lemma parseGitUrl_ref_suffix_witness :
  parseGitUrl "https://example.com/r.git"
  = Err (ConfigurationError parseGitUrl_message "https://example.com/r.git")
  /\ parseGitUrl "https://example.com/r.git#main"
     = Ok {| repositoryUrl := "https://example.com/r.git"; hash := "main" |}.
Proof.
  exact (parseGitUrl_ref_suffix "https://example.com/r.git" "main"
           eq_refl eq_refl).
Defined.

(** C10, as stated, fails: with an empty segment between the first and the
    second ["#"] the string is rejected, nothing is returned. *)
Lemma parseGitUrl_empty_segment_rejected :
  (1 < count_char "#" "https://host/r.git##b")%nat
  /\ parseGitUrl "https://host/r.git##b"
     = Err (ConfigurationError parseGitUrl_message "https://host/r.git##b").
Proof. split; [vm_compute; lia | reflexivity]. Qed.

Lemma parseGitUrl_segments (repo ref rest : string) :
  occurs "#" repo = false ->
  occurs "#" ref = false ->
  let url := repo +:+ "#" +:+ ref +:+ "#" +:+ rest in
  parseGitUrl url
  = if truthy ref then Ok {| repositoryUrl := repo; hash := ref |}
    else Err (ConfigurationError parseGitUrl_message url).
Proof.
  intros Hrepo Href url. unfold parseGitUrl, url.
  change (repo +:+ "#" +:+ ref +:+ "#" +:+ rest)
    with (repo +:+ String "#" (ref +:+ String "#" rest)).
  rewrite (split_app_sep _ _ _ Hrepo), (split_app_sep _ _ _ Href).
  simpl. reflexivity.
Qed.

(** A string in which [c] occurs is cut at the first occurrence. *)
Lemma first_occurrence (c : ascii) (s : string) :
  (0 < count_char c s)%nat ->
  exists a b, s = a +:+ String c b /\ occurs c a = false
              /\ count_char c s = S (count_char c b).
Proof.
  induction s as [|x s IH]; simpl; [lia|].
  destruct (Ascii.eqb x c) eqn:E.
  - intros _. apply Ascii.eqb_eq in E as ->.
    exists EmptyString, s. simpl. auto.
  - simpl. intros Hs. destruct (IH Hs) as (a & b & -> & Ha & Hc).
    exists (String x a), b. simpl. rewrite E. simpl. auto.
Qed.

(** C10, amended. A string with more than one ["#"] reads [repo#ref#rest],
    with no ["#"] in [repo] nor in [ref]. When [ref] is not empty the result is
    [repo] and [ref], and [rest] is dropped without an error; when [ref] is
    empty the string is rejected with a [ConfigurationError]. *)
Theorem parseGitUrl_second_separator (url : string) :
  (1 < count_char "#" url)%nat ->
  exists repo ref rest,
    url = repo +:+ "#" +:+ ref +:+ "#" +:+ rest
    /\ occurs "#" repo = false /\ occurs "#" ref = false
    /\ parseGitUrl url
       = if truthy ref then Ok {| repositoryUrl := repo; hash := ref |}
         else Err (ConfigurationError parseGitUrl_message url).
Proof.
  intros Hn.
  destruct (first_occurrence "#" url) as (repo & tl & -> & Hrepo & Hc); [lia|].
  destruct (first_occurrence "#" tl) as (ref & rest & -> & Href & _); [lia|].
  exists repo, ref, rest. repeat split; try assumption.
  apply (parseGitUrl_segments repo ref rest Hrepo Href).
Qed.

Lemma parseGitUrl_second_separator_witness :
  exists repo ref rest,
    "https://host/r.git#a#b" = repo +:+ "#" +:+ ref +:+ "#" +:+ rest
    /\ occurs "#" repo = false /\ occurs "#" ref = false
    /\ parseGitUrl "https://host/r.git#a#b"
       = if truthy ref then Ok {| repositoryUrl := repo; hash := ref |}
         else Err (ConfigurationError parseGitUrl_message
                     "https://host/r.git#a#b").
Proof.
  apply (parseGitUrl_second_separator "https://host/r.git#a#b").
  vm_compute. lia.
Defined.

(** ** Fallible computations *)

Lemma bind_Ok_inv {A B} (m : result A) (k : A -> result B) (b : B) :
  bind m k = Ok b -> exists a, m = Ok a /\ k a = Ok b.
Proof. destruct m as [a|e]; simpl; [eauto | discriminate]. Qed.

Lemma mapM_Ok_Forall2 {A B} (f : A -> result B) (l : list A) (out : list B) :
  mapM f l = Ok out -> Forall2 (fun x y => f x = Ok y) l out.
Proof.
  revert out. induction l as [|x l IH]; simpl; intros out Hm.
  - injection Hm as <-. constructor.
  - apply bind_Ok_inv in Hm as (y & Hy & Hm).
    apply bind_Ok_inv in Hm as (ys & Hys & Hm).
    injection Hm as <-. constructor; auto.
Qed.

Lemma in_filter_iff {A} (p : A -> bool) (l : list A) (x : A) :
  x ∈ List.filter p l <-> x ∈ l /\ p x = true.
Proof. rewrite !list_elem_of_In. apply filter_In. Qed.

(** ** The scanner *)

Section Scanner.

Context `{ScanEnv}.

Lemma truthy_or_empty (h : string) :
  (if truthy h then h else EmptyString) = h.
Proof. destruct h; reflexivity. Qed.

(** [getFiles] filters and hashes what [scanTree] gathered. *)
Lemma getFiles_scanTree (path : string) (include : option (list string)) :
  getFiles path include
  = let* (fim) := scanTree path in
    let '(files, ignored, modified) := fim in
    let* hashed :=
      mapM (hashFile path modified) (filterFiles include ignored files) in
    Ok (List.filter (fun f => negb (bool_decide (vcs_hash f = EmptyString)))
          hashed).
Proof.
  unfold getFiles, scanTree.
  destruct (gitCli path ["rev-parse"; "--show-toplevel"]) as [top|e];
    simpl; [|reflexivity].
  destruct (listFiles (gitCli path) path) as [[lines ignored]|e];
    simpl; [|reflexivity].
  destruct (getModifiedFiles (gitCli path) path) as [rel|e];
    simpl; [|reflexivity].
  destruct (mapM (resolve_from (top !! 0%nat)) rel) as [arr|e];
    simpl; reflexivity.
Qed.

Lemma getFiles_Ok_inv (path : string) (include : option (list string))
    (out : list VcsFile) :
  getFiles path include = Ok out ->
  exists files ignored modified hashed,
    scanTree path = Ok (files, ignored, modified)
    /\ mapM (hashFile path modified) (filterFiles include ignored files)
       = Ok hashed
    /\ out = List.filter
               (fun f => negb (bool_decide (vcs_hash f = EmptyString))) hashed.
Proof.
  rewrite getFiles_scanTree. intros Hg.
  apply bind_Ok_inv in Hg as ([[files ignored] modified] & Hs & Hg).
  apply bind_Ok_inv in Hg as (hashed & Hh & Hg).
  injection Hg as <-. exists files, ignored, modified, hashed. auto.
Qed.

Lemma vanished_guard (err : Error) :
  bool_decide (err_code err ≠ CodeNum 128)
  && bool_decide (err_code err ≠ CodeStr "ENOENT") = false <-> vanished err.
Proof.
  unfold vanished. rewrite andb_false_iff, !bool_decide_eq_false.
  split; (intros [Hc|Hc]; [left|right]);
    solve [ by apply dec_stable | by intros Hn ].
Qed.

Lemma hashFile_reuse (path : string) (modified : gset string) (f : LsFile) :
  reusesIndexHash path modified f = true ->
  exists h, ls_hash f = Some h /\ h <> EmptyString
    /\ hashFile path modified f
       = Ok {| path := path_resolve path (ls_path f); vcs_hash := h |}.
Proof.
  unfold reusesIndexHash, hashFile. intros Hr.
  apply andb_true_iff in Hr as [Ht Hm].
  rewrite Ht. apply negb_true_iff in Hm. rewrite Hm. simpl.
  destruct (ls_hash f) as [h|]; [|discriminate].
  exists h. simpl in *. rewrite truthy_true in Ht. auto.
Qed.

Lemma hashFile_recompute (path : string) (modified : gset string)
    (f : LsFile) :
  reusesIndexHash path modified f = false ->
  hashFile path modified f
  = match hashObject (path_resolve path (ls_path f)) with
    | Ok h => Ok {| path := path_resolve path (ls_path f); vcs_hash := h |}
    | Err err =>
        if bool_decide (err_code err ≠ CodeNum 128)
           && bool_decide (err_code err ≠ CodeStr "ENOENT")
        then Err err
        else Ok {| path := path_resolve path (ls_path f);
                   vcs_hash := EmptyString |}
    end.
Proof.
  unfold reusesIndexHash, hashFile. intros Hr.
  replace (negb (truthy_opt (ls_hash f))
           || bool_decide (path_resolve path (ls_path f) ∈ modified))
    with true.
  - destruct (hashObject _); [rewrite truthy_or_empty|]; reflexivity.
  - symmetry. apply andb_false_iff in Hr as [->| ->%negb_false_iff];
      [reflexivity | apply orb_true_r].
Qed.

Lemma hashFile_path (root : string) (modified : gset string) (f : LsFile)
    (v : VcsFile) :
  hashFile root modified f = Ok v ->
  path v = path_resolve root (ls_path f).
Proof.
  destruct (reusesIndexHash root modified f) eqn:Hr.
  - destruct (hashFile_reuse _ _ _ Hr) as (h & _ & _ & ->).
    intros [= <-]. reflexivity.
  - rewrite (hashFile_recompute _ _ _ Hr).
    destruct (hashObject _) as [h|err]; [intros [= <-]; reflexivity|].
    destruct (_ && _); [discriminate|]. intros [= <-]. reflexivity.
Qed.

(** The entries of the result come from the filtered entries, one by one. *)
Lemma getFiles_entries (root : string) (include : option (list string))
    (out : list VcsFile) (files : list LsFile) (ignored : list string)
    (modified : gset string) :
  getFiles root include = Ok out ->
  scanTree root = Ok (files, ignored, modified) ->
  exists hashed,
    Forall2 (fun f v => hashFile root modified f = Ok v)
      (filterFiles include ignored files) hashed
    /\ out = List.filter
               (fun f => negb (bool_decide (vcs_hash f = EmptyString))) hashed.
Proof.
  intros Hg Hs.
  apply getFiles_Ok_inv in Hg as (fs & ig & md & hashed & Hs' & Hm & ->).
  rewrite Hs in Hs'. injection Hs' as <- <- <-.
  exists hashed. split; [apply mapM_Ok_Forall2, Hm | reflexivity].
Qed.

Lemma Forall2_in_r {A B} (R : A -> B -> Prop) (l : list A) (k : list B) (y : B) :
  Forall2 R l k -> y ∈ k -> exists x, x ∈ l /\ R x y.
Proof.
  induction 1 as [|x y' l k HR _ IH]; intros Hy.
  - inversion Hy.
  - apply elem_of_cons in Hy as [->|Hy].
    + exists x. split; [left | assumption].
    + destruct (IH Hy) as (x' & Hx' & HR'). exists x'. split; [by right | assumption].
Qed.

(** When [rev-parse --show-toplevel] rejects, so does [getFiles], with the
    same error: the call stands before the [try] block. *)
Lemma getFiles_rev_parse_rejects (root : string)
    (include : option (list string)) (err : Error) :
  gitCli root ["rev-parse"; "--show-toplevel"] = Err err ->
  getFiles root include = Err err.
Proof. unfold getFiles. intros ->. reflexivity. Qed.

(** What the [catch] of the [try] block is for: once [rev-parse] has
    succeeded, a first [ls-files] that exits with 128 and a [diff-index] that
    exits with 128 give no files. *)
Lemma getFiles_ls_files_128 (root : string) (include : option (list string))
    (top : list string) (e1 e2 : Error) :
  gitCli root ["rev-parse"; "--show-toplevel"] = Ok top ->
  gitCli root ["ls-files"; "-s"; "--other"; "--exclude=.garden"; root] = Err e1 ->
  err_code e1 = CodeNum 128 ->
  gitCli root ["diff-index"; "--name-only"; "HEAD"; root] = Err e2 ->
  err_code e2 = CodeNum 128 ->
  getFiles root include = Ok [].
Proof.
  intros Ht H1 Hc1 H2 Hc2. unfold getFiles, listFiles, getModifiedFiles.
  rewrite Ht, H1, H2, Hc1, Hc2. simpl.
  destruct include; reflexivity.
Qed.

(** C2. Every entry of the result of [getFiles] has a non-empty hash. And an
    entry that has to be hashed and whose file is gone by then ([hashObject]
    rejects with [ENOENT] or with code 128) is left out: when the filtered
    entries resolve to distinct paths, its path is not in the result. *)
Theorem getFiles_no_empty_hash (root : string) (include : option (list string))
    (out : list VcsFile) :
  getFiles root include = Ok out ->
  Forall (fun v => vcs_hash v <> EmptyString) out
  /\ forall files ignored modified,
       scanTree root = Ok (files, ignored, modified) ->
       NoDup (map (fun f => path_resolve root (ls_path f))
                (filterFiles include ignored files)) ->
       forall f err,
         (f ∈ filterFiles include ignored files) ->
         reusesIndexHash root modified f = false ->
         hashObject (path_resolve root (ls_path f)) = Err err ->
         vanished err ->
         path_resolve root (ls_path f) ∉ map path out.
Proof.
  intros Hg. split.
  - apply getFiles_Ok_inv in Hg as (_ & _ & _ & hashed & _ & _ & ->).
    apply List.Forall_forall. intros v [_ Hv]%filter_In.
    apply negb_true_iff, bool_decide_eq_false in Hv. exact Hv.
  - intros files ignored modified Hs.
    destruct (getFiles_entries _ _ _ _ _ _ Hg Hs) as (hashed & HF & ->).
    clear Hg Hs. induction HF as [|g v l k Hgv HF IH]; intros Hnd f err Hf Hr Hh Hv.
    + inversion Hf.
    + simpl in Hnd. apply NoDup_cons in Hnd as [Hg Hnd].
      assert (Hk : forall w, (w ∈ k) -> path w ∈
                 map (fun f => path_resolve root (ls_path f)) l).
      { intros w Hw. destruct (Forall2_in_r _ _ _ _ HF Hw) as (x & Hx & Hxw).
        rewrite (hashFile_path _ _ _ _ Hxw).
        apply (list_elem_of_fmap_2 (fun f => path_resolve root (ls_path f)) l x Hx). }
      apply elem_of_cons in Hf as [->|Hf].
      * rewrite (hashFile_recompute _ _ _ Hr), Hh in Hgv.
        apply vanished_guard in Hv. rewrite Hv in Hgv. injection Hgv as <-.
        simpl. intros (w & Hw & [Hin _]%in_filter_iff)%list_elem_of_fmap.
        apply Hg. rewrite Hw. apply Hk, Hin.
      * specialize (IH Hnd f err Hf Hr Hh Hv). simpl.
        destruct (negb (bool_decide (vcs_hash v = EmptyString))); [|exact IH].
        simpl. intros [Heq|Hin]%elem_of_cons; [|exact (IH Hin)].
        apply Hg. rewrite <- (hashFile_path _ _ _ _ Hgv), <- Heq.
        apply (list_elem_of_fmap_2 (fun f => path_resolve root (ls_path f)) l f Hf).
Qed.

(** C5. The ignored paths are subtracted after the include filter, so an
    entry whose path is in the ignored list is not among the filtered entries,
    whether it matches an include pattern or not. Every entry of the result
    comes from a listed file that is not ignored and that matches the include
    patterns, if there are any; and when [resolve] tells the listed paths
    apart, the path of an ignored file is not in the result. *)
Theorem getFiles_ignore_wins (root : string) (include : option (list string))
    (out : list VcsFile) (files : list LsFile) (ignored : list string)
    (modified : gset string) :
  getFiles root include = Ok out ->
  scanTree root = Ok (files, ignored, modified) ->
  (forall f, (ls_path f ∈ ignored) -> f ∉ filterFiles include ignored files)
  /\ (forall v, (v ∈ out) ->
        exists f, (f ∈ files)
          /\ path v = path_resolve root (ls_path f)
          /\ (ls_path f ∉ ignored)
          /\ forall globs, include = Some globs ->
               matchGlobs (ls_path f) globs = true)
  /\ (forall f, (ls_path f ∈ ignored) ->
        (forall g, (g ∈ files) ->
           path_resolve root (ls_path g) = path_resolve root (ls_path f) ->
           ls_path g = ls_path f) ->
        path_resolve root (ls_path f) ∉ map path out).
Proof.
  intros Hg Hs.
  assert (Hfilt : forall f, (f ∈ filterFiles include ignored files) ->
            (f ∈ files) /\ (ls_path f ∉ ignored)
            /\ forall globs, include = Some globs ->
                 matchGlobs (ls_path f) globs = true).
  { intros f [[Hf Hi]%in_filter_iff Hn]%in_filter_iff.
    apply negb_true_iff, bool_decide_eq_false in Hn.
    repeat split; [assumption..|]. intros globs ->. exact Hi. }
  assert (Hout : forall v, (v ∈ out) ->
            exists f, (f ∈ files)
              /\ path v = path_resolve root (ls_path f)
              /\ (ls_path f ∉ ignored)
              /\ forall globs, include = Some globs ->
                   matchGlobs (ls_path f) globs = true).
  { intros v Hv.
    destruct (getFiles_entries _ _ _ _ _ _ Hg Hs) as (hashed & HF & ->).
    apply in_filter_iff in Hv as [Hv _].
    destruct (Forall2_in_r _ _ _ _ HF Hv) as (f & Hf & Hfv).
    destruct (Hfilt f Hf) as (Hin & Hni & Hgl).
    exists f. repeat split; [assumption | | assumption..].
    apply (hashFile_path _ _ _ _ Hfv). }
  split; [|split].
  - intros f Hi Hf. destruct (Hfilt f Hf) as (_ & Hn & _). exact (Hn Hi).
  - exact Hout.
  - intros f Hi Hinj (v & Hp & Hv)%list_elem_of_fmap.
    destruct (Hout v Hv) as (g & Hg' & Hpg & Hng & _).
    apply Hng. rewrite (Hinj g Hg'); [assumption|]. congruence.
Qed.

(** C6. The entries of the result are the filtered entries, each with its
    resolved path and a hash (the entries left with an empty hash are then
    dropped): the hash recorded in the index exactly when the entry carries
    one and its resolved path is not in the modified set, and otherwise what
    [hashObject] gives on the resolved path, or the empty hash when the file
    is gone. *)
Theorem getFiles_hash_source (root : string) (include : option (list string))
    (out : list VcsFile) (files : list LsFile) (ignored : list string)
    (modified : gset string) :
  getFiles root include = Ok out ->
  scanTree root = Ok (files, ignored, modified) ->
  exists hashed,
    out = List.filter (fun v => negb (bool_decide (vcs_hash v = EmptyString)))
            hashed
    /\ Forall2
         (fun f v =>
            path v = path_resolve root (ls_path f)
            /\ if reusesIndexHash root modified f
               then ls_hash f = Some (vcs_hash v)
               else hashObject (path_resolve root (ls_path f)) = Ok (vcs_hash v)
                    \/ (vcs_hash v = EmptyString
                        /\ exists err,
                             hashObject (path_resolve root (ls_path f)) = Err err
                             /\ vanished err))
         (filterFiles include ignored files) hashed.
Proof.
  intros Hg Hs.
  destruct (getFiles_entries _ _ _ _ _ _ Hg Hs) as (hashed & HF & ->).
  exists hashed. split; [reflexivity|].
  eapply Forall2_impl; [exact HF|].
  intros f v Hfv. cbv beta in Hfv. split; [apply (hashFile_path _ _ _ _ Hfv)|].
  destruct (reusesIndexHash root modified f) eqn:Hr.
  - destruct (hashFile_reuse _ _ _ Hr) as (h & Hh & _ & Heq).
    rewrite Heq in Hfv. injection Hfv as <-. exact Hh.
  - rewrite (hashFile_recompute _ _ _ Hr) in Hfv.
    destruct (hashObject _) as [h|err].
    + injection Hfv as <-. left. reflexivity.
    + destruct (_ && _) eqn:Hguard; [discriminate|].
      injection Hfv as <-. right. split; [reflexivity|].
      exists err. split; [reflexivity | apply vanished_guard, Hguard].
Qed.

(** C8. When [diff-index] rejects with exit code 128 (a repository without a
    commit), [getModifiedFiles] gives the empty list and no error; when it
    rejects with anything else, the error is thrown again. *)
Theorem getModifiedFiles_no_commit
    (git : list string -> result (list string)) (root : string) (err : Error) :
  git ["diff-index"; "--name-only"; "HEAD"; root] = Err err ->
  (err_code err = CodeNum 128 /\ getModifiedFiles git root = Ok [])
  \/ (err_code err <> CodeNum 128 /\ getModifiedFiles git root = Err err).
Proof.
  intros Hg. unfold getModifiedFiles. rewrite Hg.
  destruct (decide (err_code err = CodeNum 128)) as [Hc|Hc]; [left|right].
  - rewrite bool_decide_eq_true_2; [split; [assumption | reflexivity] | assumption].
  - rewrite bool_decide_eq_false_2; [split; [assumption | reflexivity] | assumption].
Qed.

(** In a repository without a commit the set of modified paths is empty, and
    the scan goes on. *)
Lemma scanTree_no_commit (root : string) (top lines ignored : list string)
    (err : Error) :
  gitCli root ["rev-parse"; "--show-toplevel"] = Ok top ->
  listFiles (gitCli root) root = Ok (lines, ignored) ->
  gitCli root ["diff-index"; "--name-only"; "HEAD"; root] = Err err ->
  err_code err = CodeNum 128 ->
  scanTree root = Ok (map parseLine lines, ignored, ∅).
Proof.
  intros Htop Hls Hdiff Hcode. unfold scanTree, getModifiedFiles.
  rewrite Htop, Hls, Hdiff, Hcode. reflexivity.
Qed.

(** C1 fails on the code. In a directory that is not inside a repository every
    git command rejects with exit code 128, [rev-parse --show-toplevel] first,
    and that call stands outside of the [try] block: [getFiles] rejects with
    the error instead of giving no files. *)
Theorem getFiles_outside_repository_rejects (root : string)
    (include : option (list string)) (err : Error) :
  (forall args, execa_stdout root args = Err err) ->
  err_code err = CodeNum 128 ->
  getFiles root include = Err err.
Proof.
  intros Hgit _. apply getFiles_rev_parse_rejects.
  unfold gitCli. rewrite Hgit. reflexivity.
Qed.

End Scanner.

(** The result of [getFiles] on the repository of the fixture. *)
Example getFiles_repo :
  @getFiles Fixture.repo "/repo" None
  = Ok [ {| path := "/repo/a.go";
            vcs_hash := "ce013625030ba8dba906f756967f9e9ca394464a" |};
         {| path := "/repo/c.go";
            vcs_hash := "0000000000000000000000000000000000000003" |};
         {| path := "/repo/new.go";
            vcs_hash := "d670460b4b4aece5915caf5c68d12f560a9fe3e4" |} ].
Proof. vm_compute. reflexivity. Qed.

Lemma getFiles_outside_repository_rejects_witness :
  @getFiles Fixture.outside "/work/module" None = Err Fixture.not_a_repository.
Proof.
  apply (getFiles_outside_repository_rejects (H := Fixture.outside)).
  - intros args. reflexivity.
  - reflexivity.
Defined.

Lemma getModifiedFiles_no_commit_witness :
  (err_code Fixture.not_a_repository = CodeNum 128
   /\ getModifiedFiles (fun _ => Err Fixture.not_a_repository) "/repo" = Ok [])
  \/ (err_code Fixture.not_a_repository <> CodeNum 128
      /\ getModifiedFiles (fun _ => Err Fixture.not_a_repository) "/repo"
         = Err Fixture.not_a_repository).
Proof.
  apply (getModifiedFiles_no_commit (fun _ => Err Fixture.not_a_repository)).
  reflexivity.
Defined.

Lemma getFiles_no_empty_hash_witness :
  Forall (fun v => vcs_hash v <> EmptyString)
    [ {| path := "/repo/a.go";
         vcs_hash := "ce013625030ba8dba906f756967f9e9ca394464a" |};
      {| path := "/repo/c.go";
         vcs_hash := "0000000000000000000000000000000000000003" |};
      {| path := "/repo/new.go";
         vcs_hash := "d670460b4b4aece5915caf5c68d12f560a9fe3e4" |} ]
  /\ "/repo/gone.go" ∉ ["/repo/a.go"; "/repo/c.go"; "/repo/new.go"].
Proof.
  destruct (getFiles_no_empty_hash (H := Fixture.repo) "/repo" None
              [ {| path := "/repo/a.go";
                   vcs_hash := "ce013625030ba8dba906f756967f9e9ca394464a" |};
                {| path := "/repo/c.go";
                   vcs_hash := "0000000000000000000000000000000000000003" |};
                {| path := "/repo/new.go";
                   vcs_hash := "d670460b4b4aece5915caf5c68d12f560a9fe3e4" |} ])
    as [Hhash Hgone].
  { vm_compute. reflexivity. }
  split; [exact Hhash|].
  eapply Hgone with (f := {| ls_path := "gone.go"; ls_hash := None |})
                    (err := Fixture.no_such_file).
  - vm_compute. reflexivity.
  - apply (bool_decide_unpack _). vm_compute. exact I.
  - apply (bool_decide_unpack _). vm_compute. exact I.
  - vm_compute. reflexivity.
  - vm_compute. reflexivity.
  - right. reflexivity.
Defined.

Lemma getFiles_ignore_wins_witness :
  @matchGlobs Fixture.repo "b.md" [".go"; ".md"] = true
  /\ "/repo/b.md" ∉ ["/repo/a.go"; "/repo/c.go"; "/repo/new.go"].
Proof.
  split; [reflexivity|].
  edestruct (getFiles_ignore_wins (H := Fixture.repo) "/repo"
               (Some [".go"; ".md"])
               [ {| path := "/repo/a.go";
                    vcs_hash := "ce013625030ba8dba906f756967f9e9ca394464a" |};
                 {| path := "/repo/c.go";
                    vcs_hash := "0000000000000000000000000000000000000003" |};
                 {| path := "/repo/new.go";
                    vcs_hash := "d670460b4b4aece5915caf5c68d12f560a9fe3e4" |} ])
    as (_ & _ & Hignored).
  - vm_compute. reflexivity.
  - vm_compute. reflexivity.
  - apply (Hignored {| ls_path := "b.md";
                       ls_hash := Some "0000000000000000000000000000000000000002" |}).
    + apply (bool_decide_unpack _). vm_compute. exact I.
    + intros g Hg.
      repeat (apply elem_of_cons in Hg as [->|Hg]);
        [intros Heq; vm_compute in Heq; first [reflexivity | discriminate Heq]..
        | inversion Hg].
Defined.

Lemma getFiles_hash_source_witness :
  exists files ignored modified hashed,
    @scanTree Fixture.repo "/repo" = Ok (files, ignored, modified)
    /\ [ {| path := "/repo/a.go";
            vcs_hash := "ce013625030ba8dba906f756967f9e9ca394464a" |};
         {| path := "/repo/c.go";
            vcs_hash := "0000000000000000000000000000000000000003" |};
         {| path := "/repo/new.go";
            vcs_hash := "d670460b4b4aece5915caf5c68d12f560a9fe3e4" |} ]
       = List.filter (fun v => negb (bool_decide (vcs_hash v = EmptyString)))
           hashed
    /\ Forall2
         (fun f v =>
            path v = Fixture.resolve "/repo" (ls_path f)
            /\ if @reusesIndexHash Fixture.repo "/repo" modified f
               then ls_hash f = Some (vcs_hash v)
               else @hashObject Fixture.repo (Fixture.resolve "/repo" (ls_path f))
                    = Ok (vcs_hash v)
                    \/ (vcs_hash v = EmptyString
                        /\ exists err,
                             @hashObject Fixture.repo
                               (Fixture.resolve "/repo" (ls_path f)) = Err err
                             /\ vanished err))
         (@filterFiles Fixture.repo None ignored files) hashed.
Proof.
  assert (Hs : { fim | @scanTree Fixture.repo "/repo" = Ok fim }).
  { eexists. vm_compute. reflexivity. }
  destruct Hs as [[[files ignored] modified] Hs].
  exists files, ignored, modified.
  destruct (getFiles_hash_source (H := Fixture.repo) "/repo" None
              [ {| path := "/repo/a.go";
                   vcs_hash := "ce013625030ba8dba906f756967f9e9ca394464a" |};
                {| path := "/repo/c.go";
                   vcs_hash := "0000000000000000000000000000000000000003" |};
                {| path := "/repo/new.go";
                   vcs_hash := "d670460b4b4aece5915caf5c68d12f560a9fe3e4" |} ]
              files ignored modified) as (hashed & Hout & Hall).
  - vm_compute. reflexivity.
  - exact Hs.
  - exists hashed. split; [exact Hs|]. split; [exact Hout | exact Hall].
Defined.

(** ** Hashing a stream *)

Module Sha1Facts.

Import Sha1.

Lemma update_app (c : ctx) (a b : list Z) :
  update c (a ++ b) = update (update c a) b.
Proof.
  revert c. induction a as [|x a IH]; intros c; simpl; [reflexivity|].
  destruct (length (pending c ++ [x]) =? 64)%nat; apply IH.
Qed.

Lemma append_assoc (s t u : string) : s +:+ (t +:+ u) = (s +:+ t) +:+ u.
Proof.
  induction s as [|c s IH]; [reflexivity|].
  change (String c (s +:+ (t +:+ u)) = String c ((s +:+ t) +:+ u)).
  by rewrite IH.
Qed.

Lemma bytes_of_string_app (s t : string) :
  bytes_of_string (s +:+ t) = bytes_of_string s ++ bytes_of_string t.
Proof. induction s as [|c s IH]; simpl; [reflexivity | by rewrite IH]. Qed.

Lemma bytes_of_string_length (s : string) :
  length (bytes_of_string s) = String.length s.
Proof. induction s as [|c s IH]; simpl; [reflexivity | by rewrite IH]. Qed.

(** Taking the chunks one after the other is taking their concatenation. *)
Lemma fold_update (chunks : list string) (c : ctx) :
  fold_left (fun c chunk => update c (bytes_of_string chunk)) chunks c
  = update c (bytes_of_string (stream_content chunks)).
Proof.
  revert c. induction chunks as [|chunk chunks IH]; intros c; simpl.
  - reflexivity.
  - rewrite IH, bytes_of_string_app, update_app. reflexivity.
Qed.

Lemma digest_stream_content (chunks : list string) :
  digest_stream chunks = digest (stream_content chunks).
Proof. unfold digest_stream, digest. rewrite fold_update. reflexivity. Qed.

(** The hasher never holds a full block: between two bytes, fewer than 64 are
    pending, however long the stream is. *)
Lemma update_pending (c : ctx) (bytes : list Z) :
  (length (pending c) < 64)%nat ->
  (length (pending (update c bytes)) < 64)%nat.
Proof.
  revert c. induction bytes as [|b bytes IH]; intros c Hc; simpl; [exact Hc|].
  destruct (length (pending c ++ [b]) =? 64)%nat eqn:E; apply IH; simpl.
  - lia.
  - apply Nat.eqb_neq in E. rewrite length_app in *. simpl in *. lia.
Qed.

Lemma update_taken (c : ctx) (bytes : list Z) :
  taken (update c bytes) = (taken c + Z.of_nat (length bytes))%Z.
Proof.
  revert c. induction bytes as [|b bytes IH]; intros c; simpl; [lia|].
  destruct (length (pending c ++ [b]) =? 64)%nat; rewrite IH; simpl; lia.
Qed.

End Sha1Facts.

Section HashObject.

Context `{ScanEnv}.

(** C7. [hashObject] digests, with SHA-1, the header [blob <size> NUL]
    followed by the bytes of the file, [size] being what [stat] reports; when
    that is the length of the content, the digest is the one of
    [git hash-object]. The digest is taken over the stream, chunk after chunk:
    after every chunk the hasher holds fewer than 64 bytes that it has not
    compressed yet, whatever the size of the file. *)
Theorem hashObject_git_blob (file : string) (size : N) :
  fs_stat file = Ok size ->
  size = N.of_nat (String.length (stream_content (fs_createReadStream file))) ->
  let content := stream_content (fs_createReadStream file) in
  let stream := blob_header size :: fs_createReadStream file in
  hashObject file = Ok (Sha1.digest (blob_header size +:+ content))
  /\ hashObject file = Ok (git_hash_object content)
  /\ forall n,
       (length (Sha1.pending
                  (fold_left
                     (fun c chunk => Sha1.update c (Sha1.bytes_of_string chunk))
                     (take n stream) Sha1.start)) < 64)%nat.
Proof.
  intros Hstat Hsize content stream.
  assert (Hh : hashObject file
               = Ok (Sha1.digest (blob_header size +:+ content))).
  { unfold hashObject. rewrite Hstat. simpl.
    rewrite Sha1Facts.digest_stream_content. reflexivity. }
  split; [exact Hh|]. split.
  - rewrite Hh. unfold git_hash_object, blob_header. subst content.
    rewrite <- Hsize, <- !Sha1Facts.append_assoc. reflexivity.
  - intros n. rewrite Sha1Facts.fold_update.
    apply Sha1Facts.update_pending. simpl. lia.
Qed.

(** When [stat] rejects, [hashObject] rejects with the same error. *)
Lemma hashObject_stat_rejects (file : string) (err : Error) :
  fs_stat file = Err err -> hashObject file = Err err.
Proof. unfold hashObject. intros ->. reflexivity. Qed.

End HashObject.

Lemma hashObject_git_blob_witness :
  @hashObject Fixture.repo "/repo/a.go"
  = Ok "ce013625030ba8dba906f756967f9e9ca394464a"
  /\ git_hash_object ("hello" +:+ Fixture.nl)
     = "ce013625030ba8dba906f756967f9e9ca394464a".
Proof.
  destruct (hashObject_git_blob (H := Fixture.repo) "/repo/a.go" 6%N)
    as (_ & Hgit & _).
  - reflexivity.
  - reflexivity.
  - split; [rewrite Hgit|]; vm_compute; reflexivity.
Defined.

(** ** Remote sources *)

Section RemoteSourceFacts.

Context {World : Type} `{SyncEnv World}.

Lemma bindS_Ok {A B} (m : Sync World A) (k : A -> Sync World B)
    (s s' : State World) (a : A) :
  m s = (Ok a, s') -> bindS m k s = k a s'.
Proof. unfold bindS. intros ->. reflexivity. Qed.

(** When the checkout is there, [ensureRemoteSource] only looks. *)
Lemma ensureRemoteSource_cloned (params : RemoteSourceParams) (w : World)
    (evs : list Event) :
  fs_ensureDir (remoteSourcesPath params) w = (Ok tt, w) ->
  fs_pathExists (remoteSourcePath params) w = (true, w) ->
  ensureRemoteSource params {| world := w; events := evs |}
  = (Ok (remoteSourcePath params), {| world := w; events := evs |}).
Proof.
  intros Hdir Hcloned. unfold ensureRemoteSource, bindS, ensureDir, pathExists.
  simpl. fold (remoteSourcesPath params). rewrite Hdir. simpl.
  fold (remoteSourcePath params). rewrite Hcloned. reflexivity.
Qed.

(** When the local commit id equals the remote one, the update ends with the
    report that the source is up to date: after the [show-ref] that gave the
    local commit id, no git command runs (no fetch, no reset), and the world
    is the one that [show-ref] left. *)
Lemma updateRemoteSource_equal_ids (params : RemoteSourceParams)
    (parsed : GitUrl) (s s1 s2 s3 s4 : State World) (p : string)
    (updated remoteRefs localRefs : list string) :
  parseGitUrl (url params) = Ok parsed ->
  ensureRemoteSource params s = (Ok p, s1) ->
  gitCliS (remoteSourcePath params) ["remote"; "update"]
    {| world := world s1;
       events := events s1
                 ++ [LogInfo (name params) "Getting remote state" "active"] |}
  = (Ok updated, s2) ->
  gitCliS (remoteSourcePath params)
    ["ls-remote"; repositoryUrl parsed; hash parsed] s2
  = (Ok remoteRefs, s3) ->
  gitCliS (remoteSourcePath params) ["show-ref"; "--hash"; hash parsed] s3
  = (Ok localRefs, s4) ->
  getCommitIdFromRefList localRefs = getCommitIdFromRefList remoteRefs ->
  updateRemoteSource params s
  = (Ok tt,
     {| world := world s4;
        events := events s4
                  ++ [EntrySetSuccess (Some "Source already up to date")] |}).
Proof.
  intros Hparse Hensure Hupdate Hremote Hlocal Hids.
  unfold updateRemoteSource. fold (remoteSourcePath params).
  unfold lift at 1. unfold bindS at 1. rewrite Hparse.
  rewrite (bindS_Ok _ _ _ _ _ Hensure).
  unfold emit at 1. unfold bindS at 1.
  rewrite (bindS_Ok _ _ _ _ _ Hupdate).
  rewrite (bindS_Ok _ _ _ _ _ Hremote).
  rewrite (bindS_Ok _ _ _ _ _ Hlocal).
  rewrite bool_decide_eq_true_2 by exact Hids. reflexivity.
Qed.

Lemma gitCliS_settled (cwd : string) (args : list string) (w : World)
    (evs : list Event) (output : string) :
  git_run cwd args w = (Ok output, w) ->
  gitCliS cwd args {| world := w; events := evs |}
  = (Ok (output_lines output), {| world := w; events := evs ++ [Git cwd args] |}).
Proof. unfold gitCliS. simpl. intros ->. reflexivity. Qed.

(** C4. In a world where the checkout exists and nothing moves, with the
    local commit id equal to the remote one: an update reports that the source
    is up to date, runs the three queries and no other git command (no fetch,
    no reset) and leaves the world as it was. Hence a second update right
    after the first does the same, and the local commit id is still the one
    read before the first. *)
Theorem updateRemoteSource_idempotent (params : RemoteSourceParams)
    (parsed : GitUrl) (w : World) (remoteOutput localOutput : string)
    (evs : list Event) :
  parseGitUrl (url params) = Ok parsed ->
  Settled params parsed w remoteOutput localOutput ->
  getCommitIdFromRefList (output_lines localOutput)
  = getCommitIdFromRefList (output_lines remoteOutput) ->
  let report := upToDateReport params parsed in
  let s := {| world := w; events := evs |} in
  let s' := {| world := w; events := evs ++ report |} in
  let s'' := {| world := w; events := (evs ++ report) ++ report |} in
  updateRemoteSource params s = (Ok tt, s')
  /\ Forall (fun e => forall cwd args, e = Git cwd args ->
                args !! 0%nat <> Some "fetch" /\ args !! 0%nat <> Some "reset"
                /\ args !! 0%nat <> Some "clone") report
  /\ last report = Some (EntrySetSuccess (Some "Source already up to date"))
  /\ updateRemoteSource params s' = (Ok tt, s'')
  /\ bindS (updateRemoteSource params) (fun _ => updateRemoteSource params) s
     = (Ok tt, s'')
  /\ localCommitId params (hash parsed) (world s'')
     = localCommitId params (hash parsed) w
  /\ localCommitId params (hash parsed) w
     = Ok (getCommitIdFromRefList (output_lines localOutput)).
Proof.
  intros Hparse [Hdir Hcloned [updated Hupdate] Hremote Hlocal] Hids.
  assert (Honce : forall evs0,
    updateRemoteSource params {| world := w; events := evs0 |}
    = (Ok tt, {| world := w;
                 events := evs0 ++ upToDateReport params parsed |})).
  { intros evs0.
    rewrite (updateRemoteSource_equal_ids params parsed _ _ _ _ _ _ _ _ _
               Hparse
               (ensureRemoteSource_cloned params w evs0 Hdir Hcloned)
               (gitCliS_settled _ _ _ _ _ Hupdate)
               (gitCliS_settled _ _ _ _ _ Hremote)
               (gitCliS_settled _ _ _ _ _ Hlocal) Hids).
    simpl. unfold upToDateReport. rewrite <- !app_assoc. reflexivity. }
  intros report s s' s''. subst report s s' s''.
  split; [apply Honce|]. split.
  { unfold upToDateReport.
    repeat (apply Forall_cons; split;
            [intros cwd args [= <- <-] || intros cwd args [=]; simpl;
             repeat split; discriminate|]).
    apply Forall_nil_2. }
  split; [reflexivity|]. split; [apply Honce|]. split.
  - unfold bindS. rewrite Honce. apply Honce.
  - split; [reflexivity|]. unfold localCommitId. rewrite Hlocal. reflexivity.
Qed.

End RemoteSourceFacts.

Lemma updateRemoteSource_idempotent_witness :
  let s := {| world := SyncFixture.in_sync; events := [] |} in
  let report :=
    @upToDateReport _ SyncFixture.env SyncFixture.params
      {| repositoryUrl := "https://example.com/r.git"; hash := "main" |} in
  @updateRemoteSource _ SyncFixture.env SyncFixture.params s
  = (Ok tt, {| world := SyncFixture.in_sync; events := report |})
  /\ bindS (@updateRemoteSource _ SyncFixture.env SyncFixture.params)
       (fun _ => @updateRemoteSource _ SyncFixture.env SyncFixture.params) s
     = (Ok tt, {| world := SyncFixture.in_sync; events := report ++ report |}).
Proof.
  destruct (updateRemoteSource_idempotent (H := SyncFixture.env)
              SyncFixture.params
              {| repositoryUrl := "https://example.com/r.git"; hash := "main" |}
              SyncFixture.in_sync
              ("c1" +:+ Fixture.tab +:+ "refs/heads/main" +:+ Fixture.nl)
              ("c1" +:+ Fixture.nl +:+ "c1" +:+ Fixture.nl)
              [])
    as (Hfirst & _ & _ & _ & Htwice & _).
  - reflexivity.
  - split; try reflexivity. eexists. reflexivity.
  - reflexivity.
  - split; [exact Hfirst | exact Htwice].
Defined.

(** Convergence on the fixture: when the ref has moved upstream, an update
    fetches and resets the checkout to the new commit, and the next update
    finds it up to date. *)
Example updateRemoteSource_converges :
  let update := @updateRemoteSource _ SyncFixture.env SyncFixture.params in
  let s1 := snd (update {| world := SyncFixture.behind; events := [] |}) in
  let s2 := snd (update {| world := world s1; events := [] |}) in
  world s1 = {| SyncFixture.upstream := "c2";
                SyncFixture.checkout := Some ("c2", "c2") |}
  /\ last (events s1) = Some (EntrySetSuccess (Some "Source updated"))
  /\ world s2 = world s1
  /\ last (events s2) = Some (EntrySetSuccess (Some "Source already up to date")).
Proof. vm_compute. auto. Qed.

(** ** Task results *)

Lemma substr_length (n : nat) (str : string) :
  String.length (substr n str) = String.length str - n.
Proof.
  revert str. induction n as [|n IH]; intros [|c str]; simpl; try lia.
  apply IH.
Qed.

Lemma substr_is_tail (n : nat) (str : string) : is_tail (substr n str) str.
Proof.
  revert str. induction n as [|n IH]; intros str.
  - exists EmptyString. reflexivity.
  - destruct str as [|c str]; [exists EmptyString; reflexivity|].
    destruct (IH str) as [front Hfront]. exists (String c front).
    change (String c str = String c (front +:+ substr n str)).
    rewrite <- Hfront. reflexivity.
Qed.

Lemma tailString_within (str : string) (maxLength : nat) (nextLine : bool) :
  String.length str <= maxLength -> tailString str maxLength nextLine = str.
Proof.
  intros Hle. unfold tailString.
  replace (String.length str - maxLength) with 0 by lia. reflexivity.
Qed.

Lemma tailString_length (str : string) (maxLength : nat) (nextLine : bool) :
  String.length (tailString str maxLength nextLine)
  = Nat.min (String.length str) maxLength.
Proof.
  unfold tailString.
  destruct (0 <? String.length str - maxLength)%nat eqn:E.
  - apply Nat.ltb_lt in E. rewrite substr_length. lia.
  - apply Nat.ltb_ge in E. lia.
Qed.

Lemma tailString_is_tail (str : string) (maxLength : nat) (nextLine : bool) :
  is_tail (tailString str maxLength nextLine) str.
Proof.
  unfold tailString. destruct (0 <? _)%nat.
  - apply substr_is_tail.
  - exists EmptyString. reflexivity.
Qed.

Lemma tailString_again (str : string) (maxLength : nat) (b b' : bool) :
  tailString (tailString str maxLength b) maxLength b'
  = tailString str maxLength b.
Proof. apply tailString_within. rewrite tailString_length. lia. Qed.

Section TaskResults.

Context `{RunEnv}.

(** What both runners leave in the store, whatever they return. *)
Lemma stored_after_run (store store' : gmap TaskKey RunTaskResult)
    (task : Task) (taskVersion : string) (interactive : bool)
    (envVars : list (string * string)) (timeout : option Z)
    (returned : RunTaskResult) :
  runHelmTask store task taskVersion interactive envVars timeout
  = Ok (returned, store')
  \/ runContainerTask store task taskVersion interactive envVars
     = Ok (returned, store') ->
  exists params res stored,
    runPod params = Ok res
    /\ store' !! (task_module task, task_name task, taskVersion) = Some stored
    /\ output (run stored)
       = tailString (output res) MAX_RUN_RESULT_OUTPUT_LENGTH true.
Proof.
  intros [Hrun|Hrun];
    [unfold runHelmTask in Hrun | unfold runContainerTask in Hrun];
    apply bind_Ok_inv in Hrun as (namespace & _ & Hrun);
    apply bind_Ok_inv in Hrun as (image & _ & Hrun);
    apply bind_Ok_inv in Hrun as (res & Hpod & Hrun);
    injection Hrun as _ <-;
    eexists _, res, _; (split; [exact Hpod|]);
    unfold storeTaskResult; rewrite lookup_insert_eq;
    (split; [reflexivity|]); simpl.
  - apply tailString_again.
  - reflexivity.
Qed.

(** C9. After a task has run, through [runHelmTask] or through
    [runContainerTask], and its result has been stored, the output in the
    store is a trailing portion of the output of the pod, no longer than
    [MAX_RUN_RESULT_OUTPUT_LENGTH]: an output above the ceiling is stored as
    its last [MAX_RUN_RESULT_OUTPUT_LENGTH] characters, an output within the
    ceiling as it is. *)
Theorem stored_output_is_tail (store store' : gmap TaskKey RunTaskResult)
    (task : Task) (taskVersion : string) (interactive : bool)
    (envVars : list (string * string)) (timeout : option Z)
    (returned : RunTaskResult) :
  runHelmTask store task taskVersion interactive envVars timeout
  = Ok (returned, store')
  \/ runContainerTask store task taskVersion interactive envVars
     = Ok (returned, store') ->
  exists params res stored,
    runPod params = Ok res
    /\ store' !! (task_module task, task_name task, taskVersion) = Some stored
    /\ is_tail (output (run stored)) (output res)
    /\ String.length (output (run stored))
       = Nat.min (String.length (output res)) MAX_RUN_RESULT_OUTPUT_LENGTH
    /\ (String.length (output res) <= MAX_RUN_RESULT_OUTPUT_LENGTH ->
        output (run stored) = output res).
Proof.
  intros Hrun.
  destruct (stored_after_run _ _ _ _ _ _ _ _ Hrun)
    as (params & res & stored & Hpod & Hstored & Hout).
  exists params, res, stored. rewrite Hout.
  repeat split; try assumption.
  - apply tailString_is_tail.
  - apply tailString_length.
  - apply tailString_within.
Qed.

(** The helm runner hands the store a result whose output is within the
    ceiling already, and returns that result. *)
Lemma runHelmTask_returns_tail (store store' : gmap TaskKey RunTaskResult)
    (task : Task) (taskVersion : string) (interactive : bool)
    (envVars : list (string * string)) (timeout : option Z)
    (returned : RunTaskResult) :
  runHelmTask store task taskVersion interactive envVars timeout
  = Ok (returned, store') ->
  String.length (output (run returned)) <= MAX_RUN_RESULT_OUTPUT_LENGTH.
Proof.
  unfold runHelmTask. intros Hrun.
  apply bind_Ok_inv in Hrun as (namespace & _ & Hrun).
  apply bind_Ok_inv in Hrun as (image & _ & Hrun).
  apply bind_Ok_inv in Hrun as (res & _ & Hrun).
  injection Hrun as <- _. simpl. rewrite tailString_length. lia.
Qed.

(** The container runner returns the output of the pod as it is. *)
Lemma runContainerTask_returns_output (store store' : gmap TaskKey RunTaskResult)
    (task : Task) (taskVersion : string) (interactive : bool)
    (envVars : list (string * string)) (returned : RunTaskResult) :
  runContainerTask store task taskVersion interactive envVars
  = Ok (returned, store') ->
  exists params, runPod params = Ok (run returned).
Proof.
  unfold runContainerTask. intros Hrun.
  apply bind_Ok_inv in Hrun as (namespace & _ & Hrun).
  apply bind_Ok_inv in Hrun as (image & _ & Hrun).
  apply bind_Ok_inv in Hrun as (res & Hpod & Hrun).
  injection Hrun as <- _. eexists. exact Hpod.
Qed.

End TaskResults.

Lemma stored_output_is_tail_witness :
  exists returned store' stored,
    @runContainerTask RunFixture.env ∅ RunFixture.task "v-1" false []
    = Ok (returned, store')
    /\ store' !! ("module-a", "task-a", "v-1") = Some stored
    /\ is_tail (output (run stored)) "0123456789"
    /\ String.length (output (run stored)) = 4.
Proof.
  pose (returned := {| run := RunFixture.pod_result; taskName := "task-a" |}).
  pose (store' := @storeTaskResult RunFixture.env ∅ "module-a" returned
                    "v-1" "task-a").
  destruct (stored_output_is_tail (H := RunFixture.env) ∅ store'
              RunFixture.task "v-1" false [] None returned)
    as (params & res & stored & Hpod & Hstored & Htail & Hlen & _).
  - right. reflexivity.
  - injection Hpod as <-. exists returned, store', stored.
    split; [reflexivity|]. split; [exact Hstored|].
    split; [exact Htail | exact Hlen].
Defined.

(** ** Test vectors *)

Example sha1_empty :
  Sha1.digest EmptyString = "da39a3ee5e6b4b0d3255bfef95601890afd80709".
Proof. vm_compute. reflexivity. Qed.

Example sha1_abc :
  Sha1.digest "abc" = "a9993e364706816aba3e25717850c26c9cd0d89d".
Proof. vm_compute. reflexivity. Qed.

Example sha1_two_blocks :
  Sha1.digest "abcdbcdecdefdefgefghfghighijhijkijkljklmklmnlmnomnopnopq"
  = "84983e441c3bd26ebaae4aa1f95129e5e54670f1".
Proof. vm_compute. reflexivity. Qed.

(** The empty blob of git. *)
Example git_hash_object_empty :
  git_hash_object EmptyString = "e69de29bb2d1d6434b8b29ae775ad8c2e48c5391".
Proof. vm_compute. reflexivity. Qed.

Example parseLine_tracked :
  parseLine ("100644 0000000000000000000000000000000000000001 0"
             +:+ Fixture.tab +:+ "src/a.go")
  = {| ls_path := "src/a.go";
       ls_hash := Some "0000000000000000000000000000000000000001" |}.
Proof. vm_compute. reflexivity. Qed.

Example parseLine_untracked :
  parseLine "new.go" = {| ls_path := "new.go"; ls_hash := None |}.
Proof. vm_compute. reflexivity. Qed.

Example getCommitIdFromRefList_empty : getCommitIdFromRefList [] = None.
Proof. reflexivity. Qed.

Example split_segments :
  split "#" "a#b#c" = ["a"; "b"; "c"]
  /\ split "#" EmptyString = [EmptyString]
  /\ split "#" "a#" = ["a"; EmptyString].
Proof. repeat split. Qed.

Example trim_both_ends :
  trim ("  a b " +:+ Fixture.tab +:+ Fixture.nl) = "a b".
Proof. reflexivity. Qed.

Example output_lines_drops_empty :
  output_lines ("a" +:+ Fixture.nl +:+ Fixture.nl +:+ "b" +:+ Fixture.nl)
  = ["a"; "b"].
Proof. reflexivity. Qed.

(** * Further properties *)

(** ** Splitting, lines and references *)

Lemma occurs_app (c : ascii) (s t : string) :
  occurs c (s +:+ t) = occurs c s || occurs c t.
Proof.
  induction s as [|a s IH]; [reflexivity|].
  change (Ascii.eqb a c || occurs c (s +:+ t)
          = Ascii.eqb a c || occurs c s || occurs c t).
  rewrite IH. apply orb_assoc.
Qed.

Lemma split_nonempty (sep : ascii) (s : string) : split sep s <> [].
Proof.
  induction s as [|c s IH]; simpl; [discriminate|].
  destruct (Ascii.eqb c sep); [discriminate|].
  destruct (split sep s); [contradiction | discriminate].
Qed.

(** The first part of a split holds no separator, and the string is that part
    alone or that part, a separator and the rest. *)
Lemma split_head (sep : ascii) (s h : string) (t : list string) :
  split sep s = h :: t ->
  occurs sep h = false
  /\ ((s = h /\ t = [])
      \/ exists rest, s = h +:+ String sep rest /\ t = split sep rest).
Proof.
  revert h t. induction s as [|c s IH]; simpl; intros h t Hs.
  - injection Hs as <- <-. auto.
  - destruct (Ascii.eqb c sep) eqn:E.
    + apply Ascii.eqb_eq in E as ->. injection Hs as <- <-.
      split; [reflexivity|]. right. exists s. auto.
    + destruct (split sep s) as [|h' t'] eqn:Hsplit.
      * destruct (split_nonempty _ _ Hsplit).
      * injection Hs as <- <-.
        destruct (IH h' t' eq_refl) as [Hh Hcases].
        split; [simpl; rewrite E; exact Hh|].
        destruct Hcases as [[-> ->]|(rest & -> & ->)]; [left; auto|].
        right. exists rest. auto.
Qed.

Lemma split_no_sep_parts (sep : ascii) (s : string) :
  Forall (fun part => occurs sep part = false) (split sep s).
Proof.
  induction s as [|c s IH]; simpl.
  - repeat constructor.
  - destruct (Ascii.eqb c sep) eqn:E; [constructor; [reflexivity | exact IH]|].
    destruct (split sep s) as [|h t]; [repeat constructor; simpl; by rewrite E|].
    inversion IH as [|? ? Hh Ht]; subst.
    constructor; [simpl; by rewrite E | exact Ht].
Qed.

(** X1. What [parseGitUrl] returns is never an empty ref name; neither
    component holds a ["#"]; and the URL starts with the repository URL, a
    ["#"] and the ref name, followed by nothing or by a further ["#"]. *)
Theorem parseGitUrl_components (url : string) (parsed : GitUrl) :
  parseGitUrl url = Ok parsed ->
  hash parsed <> EmptyString
  /\ occurs "#" (repositoryUrl parsed) = false
  /\ occurs "#" (hash parsed) = false
  /\ exists rest,
       url = repositoryUrl parsed +:+ "#" +:+ hash parsed +:+ rest
       /\ (rest = EmptyString \/ exists more, rest = String "#" more).
Proof.
  unfold parseGitUrl.
  destruct (split "#" url) as [|p0 [|p1 t]] eqn:Hsplit; simpl; try discriminate.
  destruct (truthy p1) eqn:Ht; [|discriminate]. intros [= <-]. simpl.
  destruct (split_head _ _ _ _ Hsplit) as [H0 [[_ [=]]|(r & -> & Hr)]].
  symmetry in Hr. destruct (split_head _ _ _ _ Hr) as [H1 Hcases].
  split; [by apply truthy_true|]. split; [exact H0|]. split; [exact H1|].
  destruct Hcases as [[-> _]|(more & -> & _)].
  - exists EmptyString. split; [|by left].
    change (p0 +:+ "#" +:+ p1 +:+ EmptyString)
      with (p0 +:+ String "#" (p1 +:+ EmptyString)).
    replace (p1 +:+ EmptyString) with p1; [reflexivity|].
    clear. induction p1 as [|c p1 IH]; [reflexivity|].
    change (String c p1 = String c (p1 +:+ EmptyString)). by rewrite <- IH.
  - exists (String "#" more). split; [reflexivity | right; eauto].
Qed.

Lemma parseGitUrl_components_witness :
  hash {| repositoryUrl := "https://host/r.git"; hash := "v1.0" |}
  <> EmptyString
  /\ exists rest,
       "https://host/r.git#v1.0#x"
       = "https://host/r.git" +:+ "#" +:+ "v1.0" +:+ rest
       /\ (rest = EmptyString \/ exists more, rest = String "#" more).
Proof.
  destruct (parseGitUrl_components "https://host/r.git#v1.0#x"
              {| repositoryUrl := "https://host/r.git"; hash := "v1.0" |})
    as (Hne & _ & _ & Hrest).
  - reflexivity.
  - split; [exact Hne | exact Hrest].
Defined.

(** X2. [getCommitIdFromRefList] reads the first line only, and gives what
    stands before its first tabulation (the whole line when it has none);
    from an empty list it gives [undefined]. *)
Theorem getCommitIdFromRefList_first_field :
  getCommitIdFromRefList [] = None
  /\ forall (line : string) (others : list string),
       exists id,
         getCommitIdFromRefList (line :: others) = Some id
         /\ occurs TAB id = false
         /\ (line = id \/ exists ref, line = id +:+ String TAB ref).
Proof.
  split; [reflexivity|]. intros line others. unfold getCommitIdFromRefList.
  simpl. destruct (split TAB line) as [|id t] eqn:Hsplit.
  - destruct (split_nonempty _ _ Hsplit).
  - exists id. destruct (split_head _ _ _ _ Hsplit) as [Hid Hcases].
    split; [reflexivity|]. split; [exact Hid|].
    destruct Hcases as [[-> _]|(ref & -> & _)]; [by left | right; eauto].
Qed.


Lemma nonempty_length (s : string) :
  (0 <? String.length s)%nat = true <-> s <> EmptyString.
Proof. destruct s; cbn; split; intros Hs; done. Qed.

(** X3. The lines that [gitCli] returns are never empty and hold no line
    feed. *)
Theorem gitCli_lines_clean `{ScanEnv} (cwd : string) (args lines : list string) :
  gitCli cwd args = Ok lines ->
  Forall (fun line => line <> EmptyString /\ occurs LF line = false) lines.
Proof.
  unfold gitCli. intros Hg. apply bind_Ok_inv in Hg as (output & _ & [= <-]).
  unfold output_lines. apply List.Forall_forall. intros line Hin.
  apply filter_In in Hin as [Hin Hlen]. split; [by apply nonempty_length|].
  pose proof (split_no_sep_parts LF output) as Hall.
  rewrite List.Forall_forall in Hall. exact (Hall line Hin).
Qed.

Lemma gitCli_lines_clean_witness :
  Forall (fun line => line <> EmptyString /\ occurs LF line = false)
    ["b.md"].
Proof.
  apply (gitCli_lines_clean (H := Fixture.repo) "/repo"
           ["ls-files"; "--ignored"; "--exclude-per-directory=.gardenignore";
            "/repo"]).
  reflexivity.
Defined.



(** ** Lines of [ls-files] *)

(** X5. A line of [ls-files -s] for a tracked file (mode, object name and
    stage separated by spaces, then a tabulation and the file name), without
    white space at its ends, parses to the file name and the object name. *)
Theorem parseLine_staged (mode object stage file : string) :
  occurs TAB mode = false -> occurs " " mode = false ->
  occurs TAB object = false -> occurs " " object = false ->
  occurs TAB stage = false ->
  occurs TAB file = false ->
  trim (stagedLine mode object stage file) = stagedLine mode object stage file ->
  parseLine (stagedLine mode object stage file)
  = {| ls_path := file; ls_hash := Some object |}.
Proof.
  intros Hm Hm' Ho Ho' Hs Hf Htrim. unfold parseLine. rewrite Htrim.
  unfold stagedLine.
  rewrite !Sha1Facts.append_assoc.
  rewrite split_app_sep.
  2:{ rewrite !occurs_app, Hm, Ho, Hs. reflexivity. }
  rewrite (split_no_sep _ _ Hf).
  rewrite <- !Sha1Facts.append_assoc.
  change (mode +:+ " " +:+ object +:+ " " +:+ stage)
    with (mode +:+ String " " (object +:+ String " " stage)).
  rewrite (split_app_sep _ _ _ Hm'), (split_app_sep _ _ _ Ho').
  reflexivity.
Qed.

Lemma parseLine_staged_witness :
  parseLine (stagedLine "100644" "0000000000000000000000000000000000000001"
               "0" "src/a b.go")
  = {| ls_path := "src/a b.go";
       ls_hash := Some "0000000000000000000000000000000000000001" |}.
Proof.
  apply parseLine_staged; reflexivity.
Defined.

(** X6. A line without a tabulation is an untracked file: it parses to the
    line without the white space at its ends, and no hash. So a file name
    that ends with a space is listed under the name without the space. *)
Theorem parseLine_untracked_trimmed (line : string) :
  occurs TAB (trim line) = false ->
  parseLine line = {| ls_path := trim line; ls_hash := None |}.
Proof.
  intros Hl. unfold parseLine. rewrite (split_no_sep _ _ Hl). reflexivity.
Qed.

Lemma parseLine_untracked_trimmed_witness :
  parseLine "notes.txt " = {| ls_path := "notes.txt"; ls_hash := None |}.
Proof. apply (parseLine_untracked_trimmed "notes.txt "). reflexivity. Defined.

(** ** Hashes *)

Lemma be_bytes_length (n : nat) (x : Z) : length (Sha1.be_bytes n x) = n.
Proof. induction n as [|n IH]; simpl; [reflexivity | by rewrite IH]. Qed.

Lemma be_bytes_range (n : nat) (x : Z) :
  Forall (fun b => (0 <= b < 256)%Z) (Sha1.be_bytes n x).
Proof.
  induction n as [|n IH]; simpl; constructor; [|exact IH].
  change 255%Z with (Z.ones 8). rewrite Z.land_ones by lia.
  apply Z.mod_pos_bound. lia.
Qed.

Lemma hex_digit_is_hex (x : Z) :
  (0 <= x < 16)%Z -> is_hex_digit (Sha1.hex_digit x) = true.
Proof.
  intros Hx.
  assert (Hcases : (x = 0 \/ x = 1 \/ x = 2 \/ x = 3 \/ x = 4 \/ x = 5
                    \/ x = 6 \/ x = 7 \/ x = 8 \/ x = 9 \/ x = 10 \/ x = 11
                    \/ x = 12 \/ x = 13 \/ x = 14 \/ x = 15)%Z) by lia.
  repeat (destruct Hcases as [->|Hcases]; [reflexivity|]).
  subst x. reflexivity.
Qed.

Lemma hex_of_bytes_shape (bytes : list Z) :
  Forall (fun b => (0 <= b < 256)%Z) bytes ->
  String.length (Sha1.hex_of_bytes bytes) = 2 * length bytes
  /\ all_chars is_hex_digit (Sha1.hex_of_bytes bytes) = true.
Proof.
  induction 1 as [|b bytes Hb _ [IHlen IHhex]]; [split; reflexivity|].
  cbn [Sha1.hex_of_bytes String.length all_chars length]. split; [lia|].
  rewrite IHhex, !hex_digit_is_hex; [reflexivity| |].
  - change 15%Z with (Z.ones 4). rewrite Z.land_ones by lia.
    apply Z.mod_pos_bound. lia.
  - rewrite Z.shiftr_div_pow2 by lia. change (2 ^ 4)%Z with 16%Z.
    split; [apply Z.div_pos; lia | apply Z.div_lt_upper_bound; lia].
Qed.

Lemma hex_shape (s : Sha1.state) :
  String.length (Sha1.hex s) = 40
  /\ all_chars is_hex_digit (Sha1.hex s) = true.
Proof.
  unfold Sha1.hex.
  destruct (hex_of_bytes_shape
              (Sha1.be_bytes 4 (Sha1.h0 s) ++ Sha1.be_bytes 4 (Sha1.h1 s)
               ++ Sha1.be_bytes 4 (Sha1.h2 s) ++ Sha1.be_bytes 4 (Sha1.h3 s)
               ++ Sha1.be_bytes 4 (Sha1.h4 s))) as [Hlen Hhex].
  - repeat (apply Forall_app; split); apply be_bytes_range.
  - split; [|exact Hhex]. rewrite Hlen, !length_app, !be_bytes_length.
    reflexivity.
Qed.

Lemma digest_stream_shape (chunks : list string) :
  String.length (Sha1.digest_stream chunks) = 40
  /\ all_chars is_hex_digit (Sha1.digest_stream chunks) = true.
Proof. unfold Sha1.digest_stream. apply hex_shape. Qed.

Section Hashes.

Context `{ScanEnv}.

Lemma hashObject_nonempty (file h : string) :
  hashObject file = Ok h -> h <> EmptyString.
Proof.
  unfold hashObject. intros Hh.
  apply bind_Ok_inv in Hh as (size & _ & [= <-]).
  destruct (digest_stream_shape (blob_header size :: fs_createReadStream file))
    as [Hlen _].
  intros Hempty. rewrite Hempty in Hlen. discriminate Hlen.
Qed.

(** X7. A hash that [hashObject] returns is forty digits of lower-case
    hexadecimal; in particular it is never the empty string, which
    [getFiles] takes for a file that is gone. *)
Theorem hashObject_digest_shape (file h : string) :
  hashObject file = Ok h ->
  String.length h = 40
  /\ all_chars is_hex_digit h = true
  /\ h <> EmptyString.
Proof.
  intros Hh. split; [|split; [|exact (hashObject_nonempty _ _ Hh)]];
    unfold hashObject in Hh;
    apply bind_Ok_inv in Hh as (size & _ & [= <-]);
    apply digest_stream_shape.
Qed.

(** X8. The hash of a file depends on what [stat] reports and on the bytes
    read, not on the chunks in which they are read: two files with the same
    size and the same content have the same hash. *)
Theorem hashObject_content_only (file1 file2 : string) :
  fs_stat file1 = fs_stat file2 ->
  stream_content (fs_createReadStream file1)
  = stream_content (fs_createReadStream file2) ->
  hashObject file1 = hashObject file2.
Proof.
  intros Hstat Hcontent. unfold hashObject. rewrite Hstat.
  destruct (fs_stat file2) as [size|e]; [|reflexivity]. simpl.
  rewrite !Sha1Facts.digest_stream_content. simpl. rewrite Hcontent.
  reflexivity.
Qed.

End Hashes.

Lemma hashObject_digest_shape_witness :
  String.length "ce013625030ba8dba906f756967f9e9ca394464a" = 40
  /\ all_chars is_hex_digit "ce013625030ba8dba906f756967f9e9ca394464a" = true
  /\ "ce013625030ba8dba906f756967f9e9ca394464a" <> EmptyString.
Proof.
  apply (hashObject_digest_shape (H := Fixture.repo) "/repo/a.go").
  vm_compute. reflexivity.
Defined.

Lemma hashObject_content_only_witness :
  @hashObject ReadFixture.chunked "/x" = @hashObject ReadFixture.chunked "/y".
Proof.
  apply (hashObject_content_only (H := ReadFixture.chunked)); reflexivity.
Defined.

(** ** What [getFiles] keeps, in which order, and when it gives up *)

Lemma Forall2_in_l {A B} (R : A -> B -> Prop) (l : list A) (k : list B) (x : A) :
  Forall2 R l k -> x ∈ l -> exists y, y ∈ k /\ R x y.
Proof.
  induction 1 as [|x' y l k HR _ IH]; intros Hx.
  - inversion Hx.
  - apply elem_of_cons in Hx as [->|Hx].
    + exists y. split; [left | assumption].
    + destruct (IH Hx) as (y' & Hy' & HR'). exists y'.
      split; [by right | assumption].
Qed.

Lemma mapM_first_rejection {A B} (f : A -> result B) (l : list A) (x : A)
    (e : Error) :
  x ∈ l -> f x = Err e ->
  exists y e', y ∈ l /\ f y = Err e' /\ mapM f l = Err e'.
Proof.
  induction l as [|z l IH]; intros Hx Hf.
  - inversion Hx.
  - simpl. destruct (f z) as [b|e0] eqn:Hz.
    + apply elem_of_cons in Hx as [->|Hx]; [congruence|].
      destruct (IH Hx Hf) as (y & e' & Hy & Hfy & Hm).
      exists y, e'. rewrite Hm. split; [by right | auto].
    + exists z, e0. split; [left | auto].
Qed.

Lemma filter_sublist {A} (p : A -> bool) (l : list A) :
  sublist (List.filter p l) l.
Proof.
  induction l as [|x l IH]; simpl; [constructor|].
  destruct (p x); by constructor.
Qed.

Lemma map_sublist {A B} (f : A -> B) (l k : list A) :
  sublist l k -> sublist (map f l) (map f k).
Proof. induction 1; simpl; by constructor. Qed.

Section Completeness.

Context `{ScanEnv}.

Lemma hashFile_Err (root : string) (modified : gset string) (f : LsFile)
    (e : Error) :
  hashFile root modified f = Err e ->
  reusesIndexHash root modified f = false
  /\ hashObject (path_resolve root (ls_path f)) = Err e
  /\ ~ vanished e.
Proof.
  destruct (reusesIndexHash root modified f) eqn:Hr.
  - destruct (hashFile_reuse _ _ _ Hr) as (h & _ & _ & ->). discriminate.
  - rewrite (hashFile_recompute _ _ _ Hr).
    destruct (hashObject _) as [h|err]; [discriminate|].
    destruct (_ && _) eqn:Hguard; [|discriminate].
    intros [= ->]. repeat split. intros Hv%vanished_guard. congruence.
Qed.

(** X9. No file is lost on the way: a filtered entry that keeps the hash of
    the index, or whose file [stat] finds, has an entry in the result of
    [getFiles], under its resolved path and with a hash that is not empty. *)
Theorem getFiles_keeps_existing (root : string)
    (include : option (list string)) (out : list VcsFile)
    (files : list LsFile) (ignored : list string) (modified : gset string)
    (f : LsFile) :
  getFiles root include = Ok out ->
  scanTree root = Ok (files, ignored, modified) ->
  f ∈ filterFiles include ignored files ->
  reusesIndexHash root modified f = true
  \/ (exists size, fs_stat (path_resolve root (ls_path f)) = Ok size) ->
  exists v, v ∈ out
    /\ path v = path_resolve root (ls_path f)
    /\ vcs_hash v <> EmptyString.
Proof.
  intros Hg Hs Hf Hkept.
  destruct (getFiles_entries _ _ _ _ _ _ Hg Hs) as (hashed & HF & ->).
  destruct (Forall2_in_l _ _ _ _ HF Hf) as (v & Hv & Hfv).
  assert (Hne : vcs_hash v <> EmptyString).
  { destruct (reusesIndexHash root modified f) eqn:Hr.
    - destruct (hashFile_reuse _ _ _ Hr) as (h & _ & Hh & Heq).
      rewrite Heq in Hfv. injection Hfv as <-. exact Hh.
    - destruct Hkept as [[=]|[size Hstat]].
      rewrite (hashFile_recompute _ _ _ Hr) in Hfv.
      destruct (hashObject (path_resolve root (ls_path f))) as [h|err] eqn:Hh.
      + injection Hfv as <-. simpl.
        apply (hashObject_nonempty _ _ Hh).
      + unfold hashObject in Hh. rewrite Hstat in Hh. discriminate Hh. }
  exists v. split; [|split; [apply (hashFile_path _ _ _ _ Hfv) | exact Hne]].
  apply in_filter_iff. split; [exact Hv|].
  apply negb_true_iff, bool_decide_eq_false. exact Hne.
Qed.

(** X10. [getFiles] does not sort: the paths of its result stand in the order
    in which [ls-files] lists the files, some of them left out. *)
Theorem getFiles_order (root : string) (include : option (list string))
    (out : list VcsFile) (files : list LsFile) (ignored : list string)
    (modified : gset string) :
  getFiles root include = Ok out ->
  scanTree root = Ok (files, ignored, modified) ->
  sublist (map path out)
    (map (fun f => path_resolve root (ls_path f)) files).
Proof.
  intros Hg Hs.
  destruct (getFiles_entries _ _ _ _ _ _ Hg Hs) as (hashed & HF & ->).
  transitivity (map (fun f => path_resolve root (ls_path f))
                  (filterFiles include ignored files)).
  - clear Hg Hs. induction HF as [|f v l k Hfv _ IH]; [constructor|].
    simpl. rewrite <- (hashFile_path _ _ _ _ Hfv).
    destruct (negb (bool_decide (vcs_hash v = EmptyString))); simpl;
      by constructor.
  - apply map_sublist. unfold filterFiles.
    etransitivity; apply filter_sublist.
Qed.

(** X11. A read failure other than a file that is gone is fatal: when
    [hashObject] rejects, for a filtered entry that has to be hashed, with an
    error whose code is neither 128 nor [ENOENT], [getFiles] rejects, with an
    error of that kind. *)
Theorem getFiles_read_failure (root : string) (include : option (list string))
    (files : list LsFile) (ignored : list string) (modified : gset string)
    (f : LsFile) (err : Error) :
  scanTree root = Ok (files, ignored, modified) ->
  f ∈ filterFiles include ignored files ->
  reusesIndexHash root modified f = false ->
  hashObject (path_resolve root (ls_path f)) = Err err ->
  ~ vanished err ->
  exists e, getFiles root include = Err e /\ ~ vanished e.
Proof.
  intros Hs Hf Hr Hh Hv.
  assert (Hfile : hashFile root modified f = Err err).
  { rewrite (hashFile_recompute _ _ _ Hr), Hh.
    destruct (_ && _) eqn:Hguard; [reflexivity|].
    apply vanished_guard in Hguard. contradiction. }
  destruct (mapM_first_rejection _ _ _ _ Hf Hfile) as (g & e & _ & Hg & Hm).
  exists e. split; [|apply (hashFile_Err _ _ _ _ Hg)].
  rewrite getFiles_scanTree, Hs. simpl. rewrite Hm. reflexivity.
Qed.

(** The [try] block rejects with the error of an [ls-files] call whose code
    is not 128. *)
Lemma listFiles_rejects (git : list string -> result (list string))
    (root : string) (err : Error) :
  err_code err <> CodeNum 128 ->
  git ["ls-files"; "-s"; "--other"; "--exclude=.garden"; root] = Err err
  \/ (exists lines,
        git ["ls-files"; "-s"; "--other"; "--exclude=.garden"; root] = Ok lines
        /\ git ["ls-files"; "--ignored";
                "--exclude-per-directory=.gardenignore"; root] = Err err) ->
  listFiles git root = Err err.
Proof.
  intros Hcode [H1|(lines & H1 & H2)]; unfold listFiles; rewrite H1, ?H2;
    rewrite bool_decide_eq_true_2 by exact Hcode; reflexivity.
Qed.

(** X12. A failure of git other than exit code 128 is fatal: once
    [rev-parse] has succeeded, an error whose code is not 128, of the first
    [ls-files] call, of the second one after the first has succeeded, or of
    [diff-index] after the [try] block has gone through, is the error of
    [getFiles]. *)
Theorem getFiles_backend_failure (root : string)
    (include : option (list string)) (top : list string) (err : Error) :
  gitCli root ["rev-parse"; "--show-toplevel"] = Ok top ->
  err_code err <> CodeNum 128 ->
  gitCli root ["ls-files"; "-s"; "--other"; "--exclude=.garden"; root] = Err err
  \/ (exists lines,
        gitCli root ["ls-files"; "-s"; "--other"; "--exclude=.garden"; root]
        = Ok lines
        /\ gitCli root ["ls-files"; "--ignored";
                        "--exclude-per-directory=.gardenignore"; root]
           = Err err)
  \/ (exists listed, listFiles (gitCli root) root = Ok listed
      /\ gitCli root ["diff-index"; "--name-only"; "HEAD"; root] = Err err) ->
  getFiles root include = Err err.
Proof.
  intros Htop Hcode Hcases.
  assert (Hcases' :
    listFiles (gitCli root) root = Err err
    \/ (exists listed, listFiles (gitCli root) root = Ok listed
        /\ gitCli root ["diff-index"; "--name-only"; "HEAD"; root] = Err err)).
  { destruct Hcases as [H1|[H2|H3]]; [left | left | right; exact H3];
      apply listFiles_rejects; auto. }
  destruct Hcases' as [Hls|(listed & Hls & Hdiff)]; unfold getFiles;
    rewrite Htop, Hls; simpl; [reflexivity|].
  destruct listed as [lines ignored]. unfold getModifiedFiles.
  rewrite Hdiff, bool_decide_eq_false_2 by exact Hcode. reflexivity.
Qed.

End Completeness.

Lemma getFiles_keeps_existing_witness :
  exists v,
    v ∈ [ {| path := "/repo/a.go";
             vcs_hash := "ce013625030ba8dba906f756967f9e9ca394464a" |};
          {| path := "/repo/c.go";
             vcs_hash := "0000000000000000000000000000000000000003" |};
          {| path := "/repo/new.go";
             vcs_hash := "d670460b4b4aece5915caf5c68d12f560a9fe3e4" |} ]
    /\ path v = "/repo/new.go" /\ vcs_hash v <> EmptyString.
Proof.
  eapply (getFiles_keeps_existing (H := Fixture.repo) "/repo" None _ _ _ _
            {| ls_path := "new.go"; ls_hash := None |}).
  - vm_compute. reflexivity.
  - vm_compute. reflexivity.
  - apply (bool_decide_unpack _). vm_compute. exact I.
  - right. exists 13%N. reflexivity.
Defined.

Lemma getFiles_order_witness :
  sublist ["/repo/a.go"; "/repo/c.go"; "/repo/new.go"]
    ["/repo/a.go"; "/repo/b.md"; "/repo/c.go"; "/repo/new.go"; "/repo/gone.go"].
Proof.
  apply (getFiles_order (H := Fixture.repo) "/repo" None
           [ {| path := "/repo/a.go";
                vcs_hash := "ce013625030ba8dba906f756967f9e9ca394464a" |};
             {| path := "/repo/c.go";
                vcs_hash := "0000000000000000000000000000000000000003" |};
             {| path := "/repo/new.go";
                vcs_hash := "d670460b4b4aece5915caf5c68d12f560a9fe3e4" |} ]
           [ {| ls_path := "a.go";
                ls_hash := Some "0000000000000000000000000000000000000001" |};
             {| ls_path := "b.md";
                ls_hash := Some "0000000000000000000000000000000000000002" |};
             {| ls_path := "c.go";
                ls_hash := Some "0000000000000000000000000000000000000003" |};
             {| ls_path := "new.go"; ls_hash := None |};
             {| ls_path := "gone.go"; ls_hash := None |} ]
           ["b.md"] (list_to_set ["/repo/a.go"])).
  - vm_compute. reflexivity.
  - vm_compute. reflexivity.
Defined.

Lemma getFiles_read_failure_witness :
  exists e, @getFiles ReadFixture.locked "/repo" None = Err e /\ ~ vanished e.
Proof.
  eapply (getFiles_read_failure (H := ReadFixture.locked) "/repo" None _ _ _
            {| ls_path := "new.go"; ls_hash := None |}
            ReadFixture.permission_denied).
  - vm_compute. reflexivity.
  - apply (bool_decide_unpack _). vm_compute. exact I.
  - vm_compute. reflexivity.
  - vm_compute. reflexivity.
  - intros [Hv|Hv]; discriminate Hv.
Defined.

Lemma getFiles_backend_failure_witness :
  @getFiles Fixture.repo "/elsewhere" None
  = Err (ExternalError (CodeNum 1) "unknown command").
Proof.
  apply (getFiles_backend_failure (H := Fixture.repo) "/elsewhere" None
           ["/repo"]).
  - reflexivity.
  - discriminate.
  - left. reflexivity.
Defined.

(** ** What the synchroniser runs *)

Ltac sync_cases :=
  repeat match goal with
         | |- context [parseGitUrl ?u] =>
             destruct (parseGitUrl u) as [?parsed|?e] eqn:?
         | |- context [fs_ensureDir ?d ?x] =>
             destruct (fs_ensureDir d x) as [[[]|?e] ?w] eqn:?
         | |- context [fs_pathExists ?p ?x] =>
             destruct (fs_pathExists p x) as [[|] ?w] eqn:?
         | |- context [git_run ?c ?a ?x] =>
             destruct (git_run c a x) as [[?out|?e] ?w] eqn:?
         | |- context [bool_decide ?P] =>
             destruct (bool_decide P) eqn:?
         | _ => progress simpl
         end.

Ltac sync_unfold :=
  unfold updateRemoteSource, ensureRemoteSource, bindS, catch, lift, emit,
    gitCliS, ensureDir, pathExists, ret, throw.

Section Synchroniser.

Context {World : Type} `{SyncEnv World}.

(** X13. When the checkout is there, [ensureRemoteSource] runs no git command
    and writes nothing to the log; it returns the path of the checkout,
    whatever the reference is, malformed or not. *)
Theorem ensureRemoteSource_present (params : RemoteSourceParams)
    (s : State World) (w1 w2 : World) :
  fs_ensureDir (remoteSourcesPath params) (world s) = (Ok tt, w1) ->
  fs_pathExists (remoteSourcePath params) w1 = (true, w2) ->
  ensureRemoteSource params s
  = (Ok (remoteSourcePath params), {| world := w2; events := events s |}).
Proof.
  intros Hdir Hthere. sync_unfold. simpl.
  fold (remoteSourcesPath params). rewrite Hdir. simpl.
  fold (remoteSourcePath params). rewrite Hthere. reflexivity.
Qed.

(** X14. [ensureRemoteSource] runs at most one git command, and never
    anything but a clone: of depth 1, of the branch or tag of the reference,
    from the repository URL into the path of the checkout, run in the
    directory of the sources. *)
Theorem ensureRemoteSource_only_clones (params : RemoteSourceParams)
    (s s' : State World) (r : result string) :
  ensureRemoteSource params s = (r, s') ->
  exists new,
    events s' = events s ++ new
    /\ (gitCommands new = []
        \/ exists parsed,
             parseGitUrl (url params) = Ok parsed
             /\ filter (fun e => is_Some (gitCommand e)) new
                = [Git (remoteSourcesPath params)
                     ["clone"; "--depth=1"; "--branch=" +:+ hash parsed;
                      repositoryUrl parsed; remoteSourcePath params]]).
Proof.
  sync_unfold. simpl.
  fold (remoteSourcesPath params). fold (remoteSourcePath params).
  sync_cases; intros [= <- <-]; simpl;
    try (exists []; split; [by rewrite app_nil_r | by left]);
    try (eexists; split; [rewrite <- ?app_assoc; reflexivity|];
         first [ by left | right; eexists; split; [reflexivity|];
                 reflexivity ]).
Qed.

(** X15. When the clone fails, [ensureRemoteSource] marks the log entry as
    failed and rejects with a [RuntimeError] that carries the reference as it
    was given and the message of the failure. *)
Theorem ensureRemoteSource_clone_fails (params : RemoteSourceParams)
    (parsed : GitUrl) (s : State World) (w1 w2 w3 : World) (err : Error) :
  fs_ensureDir (remoteSourcesPath params) (world s) = (Ok tt, w1) ->
  fs_pathExists (remoteSourcePath params) w1 = (false, w2) ->
  parseGitUrl (url params) = Ok parsed ->
  git_run (remoteSourcesPath params)
    ["clone"; "--depth=1"; "--branch=" +:+ hash parsed; repositoryUrl parsed;
     remoteSourcePath params] w2
  = (Err err, w3) ->
  exists message,
    ensureRemoteSource params s
    = (Err (RuntimeError message (url params) (err_message err)),
       {| world := w3;
          events := events s
                    ++ [LogInfo (name params) ("Fetching from " +:+ url params)
                          "active";
                        Git (remoteSourcesPath params)
                          ["clone"; "--depth=1"; "--branch=" +:+ hash parsed;
                           repositoryUrl parsed; remoteSourcePath params];
                        EntrySetError] |}).
Proof.
  intros Hdir Hthere Hparse Hclone. sync_unfold. simpl.
  fold (remoteSourcesPath params). rewrite Hdir. simpl.
  fold (remoteSourcePath params). rewrite Hthere. simpl.
  rewrite Hparse. simpl. rewrite Hclone. simpl.
  eexists. rewrite <- !app_assoc. reflexivity.
Qed.

(** X16. A reference without a ref name is refused before anything is
    fetched: when the checkout is not there, [ensureRemoteSource] rejects
    with the [ConfigurationError] of [parseGitUrl] and runs no git command. *)
Theorem ensureRemoteSource_bare_url (params : RemoteSourceParams)
    (s : State World) (w1 w2 : World) (err : Error) :
  fs_ensureDir (remoteSourcesPath params) (world s) = (Ok tt, w1) ->
  fs_pathExists (remoteSourcePath params) w1 = (false, w2) ->
  parseGitUrl (url params) = Err err ->
  err = ConfigurationError parseGitUrl_message (url params)
  /\ ensureRemoteSource params s
     = (Err err,
        {| world := w2;
           events := events s
                     ++ [LogInfo (name params) ("Fetching from " +:+ url params)
                           "active"] |}).
Proof.
  intros Hdir Hthere Hparse. split.
  - unfold parseGitUrl in Hparse.
    destruct (split "#" (url params)) as [|p0 [|p1 t]]; simpl in Hparse;
      try congruence.
    destruct (truthy p1); congruence.
  - sync_unfold. simpl.
    fold (remoteSourcesPath params). rewrite Hdir. simpl.
    fold (remoteSourcePath params). rewrite Hthere. simpl.
    rewrite Hparse. reflexivity.
Qed.

(** X17. [updateRemoteSource] reads the reference first: a malformed one is
    rejected with the error of [parseGitUrl] before anything is done: no
    directory made, no git command run, nothing logged. *)
Theorem updateRemoteSource_malformed (params : RemoteSourceParams)
    (s : State World) (err : Error) :
  parseGitUrl (url params) = Err err ->
  updateRemoteSource params s = (Err err, s).
Proof. intros Hparse. sync_unfold. rewrite Hparse. reflexivity. Qed.

(** X18. When the local commit id differs from the remote one, the update
    fetches the ref with depth 1 and then resets the checkout to it, in that
    order and with no other command, and reports that the source is
    updated. *)
Theorem updateRemoteSource_fetches (params : RemoteSourceParams)
    (parsed : GitUrl) (s s1 s2 s3 s4 s5 s6 : State World) (p : string)
    (updated remoteRefs localRefs fetched reset_ : list string) :
  parseGitUrl (url params) = Ok parsed ->
  ensureRemoteSource params s = (Ok p, s1) ->
  gitCliS (remoteSourcePath params) ["remote"; "update"]
    {| world := world s1;
       events := events s1
                 ++ [LogInfo (name params) "Getting remote state" "active"] |}
  = (Ok updated, s2) ->
  gitCliS (remoteSourcePath params)
    ["ls-remote"; repositoryUrl parsed; hash parsed] s2
  = (Ok remoteRefs, s3) ->
  gitCliS (remoteSourcePath params) ["show-ref"; "--hash"; hash parsed] s3
  = (Ok localRefs, s4) ->
  getCommitIdFromRefList localRefs <> getCommitIdFromRefList remoteRefs ->
  gitCliS (remoteSourcePath params)
    ["fetch"; "--depth=1"; "origin"; hash parsed]
    {| world := world s4;
       events := events s4
                 ++ [EntrySetState ("Fetching from " +:+ url params)] |}
  = (Ok fetched, s5) ->
  gitCliS (remoteSourcePath params)
    ["reset"; "--hard"; "origin/" +:+ hash parsed] s5
  = (Ok reset_, s6) ->
  updateRemoteSource params s
  = (Ok tt,
     {| world := world s6;
        events := events s6 ++ [EntrySetSuccess (Some "Source updated")] |})
  /\ events s6
     = events s4
       ++ [EntrySetState ("Fetching from " +:+ url params);
           Git (remoteSourcePath params)
             ["fetch"; "--depth=1"; "origin"; hash parsed];
           Git (remoteSourcePath params)
             ["reset"; "--hard"; "origin/" +:+ hash parsed]].
Proof.
  intros Hparse Hensure Hupdate Hremote Hlocal Hids Hfetch Hreset. split.
  - unfold updateRemoteSource. fold (remoteSourcePath params).
    unfold lift at 1. unfold bindS at 1. rewrite Hparse.
    rewrite (bindS_Ok _ _ _ _ _ Hensure).
    unfold emit at 1. unfold bindS at 1.
    rewrite (bindS_Ok _ _ _ _ _ Hupdate).
    rewrite (bindS_Ok _ _ _ _ _ Hremote).
    rewrite (bindS_Ok _ _ _ _ _ Hlocal).
    rewrite bool_decide_eq_false_2 by exact Hids. simpl.
    unfold emit at 1. unfold bindS at 1. unfold bindS at 1. unfold catch.
    rewrite (bindS_Ok _ _ _ _ _ Hfetch).
    rewrite (bindS_Ok _ _ _ _ _ Hreset). reflexivity.
  - unfold gitCliS in Hfetch, Hreset. simpl in Hfetch.
    destruct (git_run _ _ (world s4)) as [[?|?] w5]; [|discriminate].
    injection Hfetch as _ <-. simpl in Hreset.
    destruct (git_run _ _ w5) as [[?|?] w6]; [|discriminate].
    injection Hreset as _ <-. simpl. rewrite <- !app_assoc. reflexivity.
Qed.

(** X19. When the fetch fails, the checkout is not reset: the update marks
    the log entry as failed and rejects with a [RuntimeError] that carries the
    reference and the message of the failure, and [reset] is not run. *)
Theorem updateRemoteSource_fetch_fails (params : RemoteSourceParams)
    (parsed : GitUrl) (s s1 s2 s3 s4 s5 : State World) (p : string)
    (updated remoteRefs localRefs : list string) (err : Error) :
  parseGitUrl (url params) = Ok parsed ->
  ensureRemoteSource params s = (Ok p, s1) ->
  gitCliS (remoteSourcePath params) ["remote"; "update"]
    {| world := world s1;
       events := events s1
                 ++ [LogInfo (name params) "Getting remote state" "active"] |}
  = (Ok updated, s2) ->
  gitCliS (remoteSourcePath params)
    ["ls-remote"; repositoryUrl parsed; hash parsed] s2
  = (Ok remoteRefs, s3) ->
  gitCliS (remoteSourcePath params) ["show-ref"; "--hash"; hash parsed] s3
  = (Ok localRefs, s4) ->
  getCommitIdFromRefList localRefs <> getCommitIdFromRefList remoteRefs ->
  gitCliS (remoteSourcePath params)
    ["fetch"; "--depth=1"; "origin"; hash parsed]
    {| world := world s4;
       events := events s4
                 ++ [EntrySetState ("Fetching from " +:+ url params)] |}
  = (Err err, s5) ->
  exists message,
    updateRemoteSource params s
    = (Err (RuntimeError message (url params) (err_message err)),
       {| world := world s5;
          events := events s4
                    ++ [EntrySetState ("Fetching from " +:+ url params);
                        Git (remoteSourcePath params)
                          ["fetch"; "--depth=1"; "origin"; hash parsed];
                        EntrySetError] |}).
Proof.
  intros Hparse Hensure Hupdate Hremote Hlocal Hids Hfetch.
  eexists. unfold updateRemoteSource. fold (remoteSourcePath params).
  unfold lift at 1. unfold bindS at 1. rewrite Hparse.
  rewrite (bindS_Ok _ _ _ _ _ Hensure).
  unfold emit at 1. unfold bindS at 1.
  rewrite (bindS_Ok _ _ _ _ _ Hupdate).
  rewrite (bindS_Ok _ _ _ _ _ Hremote).
  rewrite (bindS_Ok _ _ _ _ _ Hlocal).
  rewrite bool_decide_eq_false_2 by exact Hids. simpl.
  unfold emit at 1. unfold bindS at 1. unfold bindS at 1. unfold catch.
  unfold bindS at 1. rewrite Hfetch. unfold bindS, emit, throw. simpl.
  unfold gitCliS in Hfetch. simpl in Hfetch.
  destruct (git_run _ _ (world s4)) as [[?|?] w5]; [discriminate|].
  injection Hfetch as _ <-. simpl. rewrite <- !app_assoc. reflexivity.
Qed.

(** X20. Whatever the outside answers, an update only adds to the trace, and
    what it adds holds no git command other than [clone], [remote],
    [ls-remote], [show-ref], [fetch] and [reset], and no [reset] that does not
    come directly after a [fetch]. *)
Theorem updateRemoteSource_safe (params : RemoteSourceParams)
    (s s' : State World) (r : result unit) :
  updateRemoteSource params s = (r, s') ->
  exists new,
    events s' = events s ++ new
    /\ resetFollowsFetch false new = true
    /\ Forall (fun c => c ∈ ["clone"; "remote"; "ls-remote"; "show-ref";
                            "fetch"; "reset"]) (gitCommands new).
Proof.
  sync_unfold. simpl. sync_cases; intros [= <- <-]; simpl;
    try (exists []; split; [by rewrite app_nil_r|];
         split; [reflexivity | constructor]);
    (eexists; split; [rewrite <- ?app_assoc; reflexivity|];
     split; [reflexivity|];
     apply (bool_decide_unpack _); vm_compute; exact I).
Qed.

End Synchroniser.

Lemma ensureRemoteSource_present_witness :
  @ensureRemoteSource _ SyncFixture.env OfflineFixture.bare
    {| world := SyncFixture.in_sync; events := [] |}
  = (Ok "/project/.garden/sources/module/r",
     {| world := SyncFixture.in_sync; events := [] |}).
Proof.
  apply (ensureRemoteSource_present (H := SyncFixture.env) OfflineFixture.bare
           {| world := SyncFixture.in_sync; events := [] |}
           SyncFixture.in_sync SyncFixture.in_sync);
    reflexivity.
Defined.

Lemma ensureRemoteSource_only_clones_witness :
  exists new,
    events (snd (@ensureRemoteSource _ SyncFixture.env SyncFixture.params
                   {| world := OfflineFixture.absent; events := [] |}))
    = [] ++ new
    /\ (gitCommands new = []
        \/ exists parsed,
             parseGitUrl "https://example.com/r.git#main" = Ok parsed
             /\ filter (fun e => is_Some (gitCommand e)) new
                = [Git "/project/.garden/sources/module"
                     ["clone"; "--depth=1"; "--branch=" +:+ hash parsed;
                      repositoryUrl parsed;
                      "/project/.garden/sources/module/r"]]).
Proof.
  apply (ensureRemoteSource_only_clones (H := SyncFixture.env)
           SyncFixture.params
           {| world := OfflineFixture.absent; events := [] |} _
           (fst (@ensureRemoteSource _ SyncFixture.env SyncFixture.params
                   {| world := OfflineFixture.absent; events := [] |}))).
  apply surjective_pairing.
Defined.

Lemma ensureRemoteSource_clone_fails_witness :
  exists message,
    @ensureRemoteSource _ OfflineFixture.env SyncFixture.params
      {| world := OfflineFixture.absent; events := [] |}
    = (Err (RuntimeError message "https://example.com/r.git#main"
              "fatal: unable to access the remote"),
       {| world := OfflineFixture.absent;
          events :=
            [LogInfo "r" "Fetching from https://example.com/r.git#main" "active";
             Git "/project/.garden/sources/module"
               ["clone"; "--depth=1"; "--branch=main";
                "https://example.com/r.git";
                "/project/.garden/sources/module/r"];
             EntrySetError] |}).
Proof.
  apply (ensureRemoteSource_clone_fails (H := OfflineFixture.env)
           SyncFixture.params
           {| repositoryUrl := "https://example.com/r.git"; hash := "main" |}
           {| world := OfflineFixture.absent; events := [] |}
           OfflineFixture.absent OfflineFixture.absent OfflineFixture.absent
           OfflineFixture.unreachable);
    reflexivity.
Defined.

Lemma ensureRemoteSource_bare_url_witness :
  ConfigurationError parseGitUrl_message "https://example.com/r.git"
  = ConfigurationError parseGitUrl_message (url OfflineFixture.bare)
  /\ @ensureRemoteSource _ SyncFixture.env OfflineFixture.bare
       {| world := OfflineFixture.absent; events := [] |}
     = (Err (ConfigurationError parseGitUrl_message "https://example.com/r.git"),
        {| world := OfflineFixture.absent;
           events :=
             [LogInfo "r" "Fetching from https://example.com/r.git" "active"] |}).
Proof.
  apply (ensureRemoteSource_bare_url (H := SyncFixture.env) OfflineFixture.bare
           {| world := OfflineFixture.absent; events := [] |}
           OfflineFixture.absent OfflineFixture.absent);
    reflexivity.
Defined.

Lemma updateRemoteSource_malformed_witness :
  @updateRemoteSource _ SyncFixture.env OfflineFixture.bare
    {| world := OfflineFixture.absent; events := [] |}
  = (Err (ConfigurationError parseGitUrl_message "https://example.com/r.git"),
     {| world := OfflineFixture.absent; events := [] |}).
Proof.
  apply (updateRemoteSource_malformed (H := SyncFixture.env)).
  reflexivity.
Defined.

Lemma updateRemoteSource_fetches_witness :
  @updateRemoteSource _ SyncFixture.env SyncFixture.params
    {| world := SyncFixture.behind; events := [] |}
  = (Ok tt,
     {| world := {| SyncFixture.upstream := "c2";
                    SyncFixture.checkout := Some ("c2", "c2") |};
        events :=
          [LogInfo "r" "Getting remote state" "active";
           Git "/project/.garden/sources/module/r" ["remote"; "update"];
           Git "/project/.garden/sources/module/r"
             ["ls-remote"; "https://example.com/r.git"; "main"];
           Git "/project/.garden/sources/module/r" ["show-ref"; "--hash"; "main"];
           EntrySetState "Fetching from https://example.com/r.git#main";
           Git "/project/.garden/sources/module/r"
             ["fetch"; "--depth=1"; "origin"; "main"];
           Git "/project/.garden/sources/module/r"
             ["reset"; "--hard"; "origin/main"];
           EntrySetSuccess (Some "Source updated")] |}).
Proof.
  edestruct (updateRemoteSource_fetches (H := SyncFixture.env)
               SyncFixture.params
               {| repositoryUrl := "https://example.com/r.git"; hash := "main" |}
               {| world := SyncFixture.behind; events := [] |})
    as [Hrun _].
  - reflexivity.
  - vm_compute. reflexivity.
  - vm_compute. reflexivity.
  - vm_compute. reflexivity.
  - vm_compute. reflexivity.
  - vm_compute. discriminate.
  - vm_compute. reflexivity.
  - vm_compute. reflexivity.
  - exact Hrun.
Defined.

Lemma updateRemoteSource_fetch_fails_witness :
  exists message,
    @updateRemoteSource _ OfflineFixture.env_no_fetch SyncFixture.params
      {| world := SyncFixture.behind; events := [] |}
    = (Err (RuntimeError message "https://example.com/r.git#main"
              "fatal: unable to access the remote"),
       {| world := {| SyncFixture.upstream := "c2";
                      SyncFixture.checkout := Some ("c1", "c2") |};
          events :=
            [LogInfo "r" "Getting remote state" "active";
             Git "/project/.garden/sources/module/r" ["remote"; "update"];
             Git "/project/.garden/sources/module/r"
               ["ls-remote"; "https://example.com/r.git"; "main"];
             Git "/project/.garden/sources/module/r"
               ["show-ref"; "--hash"; "main"];
             EntrySetState "Fetching from https://example.com/r.git#main";
             Git "/project/.garden/sources/module/r"
               ["fetch"; "--depth=1"; "origin"; "main"];
             EntrySetError] |}).
Proof.
  eapply (updateRemoteSource_fetch_fails (H := OfflineFixture.env_no_fetch)
            SyncFixture.params
            {| repositoryUrl := "https://example.com/r.git"; hash := "main" |}
            {| world := SyncFixture.behind; events := [] |}
            {| world := SyncFixture.behind; events := [] |}
            _ _
            {| world := {| SyncFixture.upstream := "c2";
                           SyncFixture.checkout := Some ("c1", "c2") |};
               events :=
                 [LogInfo "r" "Getting remote state" "active";
                  Git "/project/.garden/sources/module/r" ["remote"; "update"];
                  Git "/project/.garden/sources/module/r"
                    ["ls-remote"; "https://example.com/r.git"; "main"];
                  Git "/project/.garden/sources/module/r"
                    ["show-ref"; "--hash"; "main"]] |}
            {| world := {| SyncFixture.upstream := "c2";
                           SyncFixture.checkout := Some ("c1", "c2") |};
               events := _ |}
            _ _ _ _ OfflineFixture.unreachable).
  - reflexivity.
  - vm_compute. reflexivity.
  - vm_compute. reflexivity.
  - vm_compute. reflexivity.
  - vm_compute. reflexivity.
  - vm_compute. discriminate.
  - vm_compute. reflexivity.
Defined.

Lemma updateRemoteSource_safe_witness :
  exists new,
    events (snd (@updateRemoteSource _ SyncFixture.env SyncFixture.params
                   {| world := SyncFixture.behind; events := [] |}))
    = [] ++ new
    /\ resetFollowsFetch false new = true
    /\ Forall (fun c => c ∈ ["clone"; "remote"; "ls-remote"; "show-ref";
                            "fetch"; "reset"]) (gitCommands new).
Proof.
  apply (updateRemoteSource_safe (H := SyncFixture.env) SyncFixture.params
           {| world := SyncFixture.behind; events := [] |} _
           (fst (@updateRemoteSource _ SyncFixture.env SyncFixture.params
                   {| world := SyncFixture.behind; events := [] |}))).
  apply surjective_pairing.
Defined.

Section Queries.

Context {World : Type} `{SyncEnv World}.

(** X21. The three queries of an update stand outside of its [try] block:
    when [remote update] fails, the update rejects with the error of git as
    it is, not with a [RuntimeError], the log entry is not marked as failed,
    and nothing is fetched. *)
Theorem updateRemoteSource_query_fails (params : RemoteSourceParams)
    (parsed : GitUrl) (s s1 s2 : State World) (p : string) (err : Error) :
  parseGitUrl (url params) = Ok parsed ->
  ensureRemoteSource params s = (Ok p, s1) ->
  gitCliS (remoteSourcePath params) ["remote"; "update"]
    {| world := world s1;
       events := events s1
                 ++ [LogInfo (name params) "Getting remote state" "active"] |}
  = (Err err, s2) ->
  updateRemoteSource params s = (Err err, s2)
  /\ events s2
     = events s1
       ++ [LogInfo (name params) "Getting remote state" "active";
           Git (remoteSourcePath params) ["remote"; "update"]].
Proof.
  intros Hparse Hensure Hupdate. split.
  - unfold updateRemoteSource. fold (remoteSourcePath params).
    unfold lift at 1. unfold bindS at 1. rewrite Hparse.
    rewrite (bindS_Ok _ _ _ _ _ Hensure).
    unfold emit at 1. unfold bindS at 1. unfold bindS at 1.
    rewrite Hupdate. reflexivity.
  - unfold gitCliS in Hupdate. simpl in Hupdate.
    destruct (git_run _ _ (world s1)) as [[?|?] w]; [discriminate|].
    injection Hupdate as _ <-. simpl. rewrite <- app_assoc. reflexivity.
Qed.

End Queries.

Lemma updateRemoteSource_query_fails_witness :
  @updateRemoteSource _ OfflineFixture.env SyncFixture.params
    {| world := SyncFixture.in_sync; events := [] |}
  = (Err OfflineFixture.unreachable,
     {| world := SyncFixture.in_sync;
        events :=
          [LogInfo "r" "Getting remote state" "active";
           Git "/project/.garden/sources/module/r" ["remote"; "update"]] |}).
Proof.
  edestruct (updateRemoteSource_query_fails (H := OfflineFixture.env)
               SyncFixture.params
               {| repositoryUrl := "https://example.com/r.git"; hash := "main" |}
               {| world := SyncFixture.in_sync; events := [] |})
    as [Hrun _].
  - reflexivity.
  - vm_compute. reflexivity.
  - vm_compute. reflexivity.
  - exact Hrun.
Defined.
